(** * Collaboration-graph builder, edge-set store and path finder

    A shallow embedding of [arxiv_api/clients/graph_client.py] and of the
    part of [arxiv_api/clients/arxiv_client.py] it calls.

    - Author names are Python [str]: [string].
    - Depths are Python [int]: [Z].
    - [nx.Graph] is its adjacency dictionary, node |-> set of neighbours:
      [gmap string (gset string)].
    - A Python exception is an [exn]; code that may raise returns a [result].
    - The [while queue:] loop of [build_collaboration_network] is a fuelled
      fixpoint over an explicit loop state; its termination is proved. *)

From Stdlib Require Import ZArith Lia Ascii String.
From stdpp Require Import base option list sets gmap strings pretty.

#[local] Set Warnings "-clear-no-such-hyp".

Open Scope Z_scope.
Open Scope string_scope.
Open Scope list_scope.

(** ** Exceptions *)

Inductive exn : Type :=
| StopIteration            (* next() on an exhausted iterator *)
| NetworkXNoPath           (* nx.shortest_path: target not reachable *)
| NodeNotFound             (* nx.shortest_path: an endpoint is no node *)
| SourceError (msg : string). (* anything the arXiv client raises *)

Inductive result (A : Type) : Type :=
| Ok (a : A)
| Raise (e : exn).
Arguments Ok {A} a.
Arguments Raise {A} e.

(** ** networkx: the part of [nx.Graph] the client uses *)

Module nx.

Abbreviation Graph := (gmap string (gset string)).

(** [nx.Graph()] *)
Definition empty : Graph := ∅.

(** [G.has_node(n)]: [n in self._node] *)
Definition has_node (G : Graph) (n : string) : bool :=
  bool_decide (is_Some (G !! n)).

(** [G[n]], with no neighbours for a name that is not a node *)
Definition adj (G : Graph) (n : string) : gset string :=
  default ∅ (G !! n).

(** [G.add_node(n)]: a new node gets an empty adjacency; an existing one
    is left as it is. *)
Definition add_node (G : Graph) (n : string) : Graph :=
  match G !! n with
  | Some _ => G
  | None => <[n := ∅]> G
  end.

(** [G.add_edge(u, v)]: both endpoints become nodes, then
    [adj[u][v]] and [adj[v][u]] are set. Nothing excludes [u = v]. *)
Definition add_edge (G : Graph) (u v : string) : Graph :=
  let G1 := add_node G u in
  let G2 := add_node G1 v in
  let G3 := <[u := adj G2 u ∪ {[v]}]> G2 in
  <[v := adj G3 v ∪ {[u]}]> G3.

(** [G.has_edge(u, v)] *)
Definition has_edge (G : Graph) (u v : string) : bool :=
  bool_decide (v ∈ adj G u).

(** [G.nodes()] as a set, [G.number_of_nodes()] *)
Definition nodes (G : Graph) : gset string := dom G.
Definition number_of_nodes (G : Graph) : nat := size (dom G).

(** The adjacency as Python walks it: the nodes one after the other, each
    with its neighbours one after the other. A dictionary walks its keys
    in insertion order, which the map does not record: a [view] of [G] is
    any such walk, and what is proved of [G.edges()] is proved for all. *)
Abbreviation view := (list (string * list string)).

Definition of_view (l : view) : Graph :=
  list_to_map (prod_map id list_to_set <$> l).

Definition views (l : view) (G : Graph) : Prop :=
  NoDup l.*1 ∧ Forall (λ e, NoDup e.2) l ∧ of_view l = G.

#[global] Instance views_dec l G : Decision (views l G).
Proof. unfold views. apply _. Defined.

(** The walk in the order of the map itself. *)
Definition items (G : Graph) : view :=
  (λ e, (e.1, elements e.2)) <$> map_to_list G.

(** [G.edges()]: every node in turn reports the neighbours that were not
    walked as a node before it, so an edge is listed once. *)
Fixpoint edges_from (l : view) (seen : gset string)
  : list (string * string) :=
  match l with
  | [] => []
  | (n, nbrs) :: l' =>
      ((λ nbr, (n, nbr)) <$> filter (λ nbr, nbr ∉ seen) nbrs)
        ++ edges_from l' (seen ∪ {[n]})
  end.

Definition edges_in (l : view) : list (string * string) := edges_from l ∅.

Definition edges (G : Graph) : list (string * string) := edges_in (items G).

Definition number_of_edges (G : Graph) : nat := length (edges G).

(** How many of the listed edges join [u] and [v], in either orientation. *)
Definition joining (u v : string) (es : list (string * string)) : nat :=
  length (filter (λ e, e = (u, v) ∨ e = (v, u)) es).

(** The graph without its isolated nodes, and the names that are an
    endpoint of some edge. *)
Definition drop_isolated (G : Graph) : Graph :=
  filter (λ e, e.2 ≠ ∅) G.

Definition endpoints (G : Graph) : gset string := dom (drop_isolated G).

(** The representation invariant of an undirected graph. *)
Definition symmetric (G : Graph) : Prop :=
  ∀ u v, v ∈ adj G u → u ∈ adj G v.

Definition no_self_loops (G : Graph) : Prop :=
  ∀ u, u ∉ adj G u.

End nx.

(** ** arxiv_client.py *)

(** [arxiv.Result], reduced to the attribute the graph client reads: the
    names of [result.authors]. *)
Record Result : Type := { authors : list string }.

Section ArxivClient.

(** The state of the outside world (the arXiv service and the network). *)
Context {W : Type}.
(** [unidecode.unidecode] *)
Variable unidecode : string → string.
(** [list(arxiv.Client().results(arxiv.Search(query=q, ...)))]: the answer to
    query [q] with at most [max_results] results, or the exception the
    client raises. *)
Variable client_results : W → string → Z → W * result (list Result).

Definition dquote : string := String (Ascii.ascii_of_nat 34) EmptyString.

(** [ArxivClient.search_arxiv_publications]: no [try] around the client call,
    so whatever it raises reaches the caller. *)
Definition search_arxiv_publications
    (w : W) (author_name : string) (max_results : Z) (transliterate_name : bool)
  : W * result (list Result) :=
  let author_name :=
    if transliterate_name then unidecode author_name else author_name in
  let search_query := "au:" +:+ dquote +:+ author_name +:+ dquote in
  client_results w search_query max_results.

End ArxivClient.

(** [ArxivClient.get_coauthors] *)
Definition get_coauthors (r : Result) : list string := authors r.

(** ** graph_client.py: build_collaboration_network *)

Section Build.

Context {W : Type}.
(** The publication source, [ArxivClient.search_arxiv_publications] with its
    default arguments: the new world and the results or the exception. *)
Variable search : W → string → W * result (list Result).

(** The variables of the loop, the world, and the names passed to the
    publication source so far (oldest first). *)
Record state : Type := mkState {
  G : nx.Graph;
  processed_authors : gset string;
  queue : list (string * Z);
  queried : list string;
  world : W
}.

(** The body of [for coauthor in coauthors]. [processed_authors] does not
    change while the results of one author are walked. *)
Definition visit_coauthor (current_author : string) (depth : Z)
    (processed : gset string) (acc : nx.Graph * list (string * Z))
    (coauthor : string) : nx.Graph * list (string * Z) :=
  if decide (coauthor ≠ current_author) then
    (nx.add_edge acc.1 current_author coauthor,
     if decide (coauthor ∉ processed)
     then acc.2 ++ [(coauthor, depth + 1)]
     else acc.2)
  else acc.

(** [for r in results: for coauthor in get_coauthors(r): ...] *)
Definition visit_results (current_author : string) (depth : Z)
    (processed : gset string) (acc : nx.Graph * list (string * Z))
    (results : list Result) : nx.Graph * list (string * Z) :=
  foldl (λ acc r,
           foldl (visit_coauthor current_author depth processed) acc
                 (get_coauthors r))
        acc results.

(** One turn of [while queue:] after [queue.popleft()] gave
    [(current_author, depth)] and left [rest]. The second component is the
    exception that leaves the loop, if any. *)
Definition loop_body (max_depth : Z) (st : state)
    (current_author : string) (depth : Z) (rest : list (string * Z))
  : state * option exn :=
  if decide (current_author ∈ processed_authors st) then
    (mkState (G st) (processed_authors st) rest (queried st) (world st), None)
  else
    let processed := processed_authors st ∪ {[current_author]} in
    let G1 := if nx.has_node (G st) current_author then G st
              else nx.add_node (G st) current_author in
    if depth >=? max_depth then
      (mkState G1 processed rest (queried st) (world st), None)
    else
      let '(w, res) := search (world st) current_author in
      let asked := queried st ++ [current_author] in
      match res with
      | Raise e => (mkState G1 processed rest asked w, Some e)
      | Ok [] => (mkState G1 processed rest asked w, None)
      | Ok results =>
          let '(G2, q) :=
            visit_results current_author depth processed (G1, rest) results in
          (mkState G2 processed q asked w, None)
      end.

(** How a run of the loop ends. *)
Inductive outcome : Type :=
| Returned (st : state)          (* the queue emptied: [return G] *)
| Raised (e : exn) (st : state)  (* an exception left the function *)
| Running (st : state).          (* the fuel ran out first *)

Definition final (o : outcome) : state :=
  match o with Returned st | Raised _ st | Running st => st end.

(** The run stopped by itself. *)
Definition halted (o : outcome) : Prop :=
  match o with Running _ => False | _ => True end.

(** The levels left between a record and the depth bound. *)
Definition weight (max_depth : Z) (x : string * Z) : nat :=
  Z.to_nat (max_depth - x.2).

(** The names asked about are processed and no name is asked about twice. *)
Definition asked_once (st : state) : Prop :=
  NoDup (queried st) ∧ ∀ a, a ∈ queried st → a ∈ processed_authors st.

Fixpoint while_queue (fuel : nat) (max_depth : Z) (st : state) : outcome :=
  match queue st with
  | [] => Returned st
  | (current_author, depth) :: rest =>
      match fuel with
      | O => Running st
      | S fuel' =>
          match loop_body max_depth st current_author depth rest with
          | (st', Some e) => Raised e st'
          | (st', None) => while_queue fuel' max_depth st'
          end
      end
  end.

Definition init (w : W) (start_author : string) : state :=
  mkState nx.empty ∅ [(start_author, 0)] [] w.

Definition build_collaboration_network
    (fuel : nat) (w : W) (start_author : string) (max_depth : Z) : outcome :=
  while_queue fuel max_depth (init w start_author).

End Build.

(** ** graph_client.py: save_edges_to_csv and load_all_csv_edges *)

(** A CSV file is the rows [csv.reader] yields from it, each row the list of
    its fields; [csv.writer] writes such rows. A folder is what
    [os.listdir] names, each name with the rows of that file. *)
Abbreviation csv_file := (list (list string)).
Abbreviation folder := (list (string * csv_file)).

(** [s.endswith(suffix)] *)
Definition endswith (s suffix : string) : bool :=
  let n := String.length s in
  let m := String.length suffix in
  if (m <=? n)%nat
  then bool_decide (String.substring (n - m) m s = suffix)
  else false.

(** [s.replace(" ", "")] *)
Fixpoint remove_spaces (s : string) : string :=
  match s with
  | EmptyString => EmptyString
  | String c s' =>
      if Ascii.eqb c " "%char then remove_spaces s'
      else String c (remove_spaces s')
  end.

(** [save_edges_to_csv], given [G] as Python walks it: the path of the file
    and the rows written to it. *)
Definition save_edges_to_csv (G_view : nx.view) (author : string)
    (max_depth : Z) : string * csv_file :=
  let filename :=
    "../csv_database/" +:+ "collaboration_network_" +:+ remove_spaces author
      +:+ "_depth_" +:+ pretty max_depth +:+ ".csv" in
  (filename,
   ["Author1"; "Author2"]
     :: ((λ e : string * string, [e.1; e.2]) <$> nx.edges_in G_view)).

(** [if len(row) == 2: G.add_edge(row[0], row[1])] *)
Definition load_row (G : nx.Graph) (row : list string) : nx.Graph :=
  if decide (length row = 2%nat)
  then nx.add_edge G (row !!! 0%nat) (row !!! 1%nat)
  else G.

(** The loop over [os.listdir(csv_folder)], from graph [G] on. [next(reader)]
    on a file without rows raises [StopIteration], which nothing catches. *)
Fixpoint load_files (G : nx.Graph) (files : folder) : result nx.Graph :=
  match files with
  | [] => Ok G
  | (filename, rows) :: files' =>
      if endswith filename ".csv" then
        match rows with
        | [] => Raise StopIteration
        | _ :: data => load_files (foldl load_row G data) files'
        end
      else load_files G files'
  end.

Definition load_all_csv_edges (csv_folder : folder) : result nx.Graph :=
  load_files nx.empty csv_folder.

(** The files the loop opens, and the rows after their headers, in the
    order the loop meets them. *)
Definition csv_files (dir : folder) : list csv_file :=
  snd <$> filter (λ f, endswith f.1 ".csv" = true) dir.

Definition data_rows (dir : folder) : list (list string) :=
  mjoin (tail <$> csv_files dir).

(** The union of two graphs: the nodes of both, and for every node the
    neighbours it has in either. *)
Definition graph_union (G1 G2 : nx.Graph) : nx.Graph :=
  union_with (λ s1 s2, Some (s1 ∪ s2)) G1 G2.

(** ** graph_client.py: find_connection *)

(** [nx.shortest_path(G, source, target)] for an unweighted graph: a
    breadth-first search from [source]. The frontier holds, for every name
    reached and not yet expanded, the path that reached it, last name
    first. *)
Fixpoint bfs (fuel : nat) (G : nx.Graph) (target : string)
    (seen : gset string) (frontier : list (list string))
  : option (list string) :=
  match fuel with
  | O => None
  | S fuel' =>
      match frontier with
      | [] => None
      | [] :: frontier' => bfs fuel' G target seen frontier'
      | (v :: p) :: frontier' =>
          if decide (v = target) then Some (reverse (v :: p))
          else
            let new := filter (λ n, n ∉ seen) (elements (nx.adj G v)) in
            bfs fuel' G target (seen ∪ list_to_set new)
                (frontier' ++ ((λ n, n :: v :: p) <$> new))
      end
  end.

Definition shortest_path (G : nx.Graph) (source target : string)
  : result (list string) :=
  if nx.has_node G source && nx.has_node G target then
    match bfs (S (size G)) G target {[source]} [[source]] with
    | Some path => Ok path
    | None => Raise NetworkXNoPath
    end
  else Raise NodeNotFound.

(** What [find_connection] prints. *)
Inductive report : Type :=
| NotFound (author : string)
| NoConnection
| Connection (path : list string) (degrees : Z).

Definition find_connection (G : nx.Graph) (author1 author2 : string)
  : result report :=
  if negb (nx.has_node G author1) then Ok (NotFound author1)
  else if negb (nx.has_node G author2) then Ok (NotFound author2)
  else
    match shortest_path G author1 author2 with
    | Ok path => Ok (Connection path (Z.of_nat (length path) - 1))
    | Raise NetworkXNoPath => Ok NoConnection
    | Raise e => Raise e
    end.

(** Two names are connected when a walk along edges leads from one to the
    other. *)
Definition neighbour (G : nx.Graph) : relation string :=
  λ u v, v ∈ nx.adj G u.

Definition connected (G : nx.Graph) : relation string := rtc (neighbour G).

(** A list of names each of which is a neighbour of the one before it. *)
Fixpoint walk (G : nx.Graph) (p : list string) : Prop :=
  match p with
  | u :: ((v :: _) as p') => v ∈ nx.adj G u ∧ walk G p'
  | _ => True
  end.

(** A frontier entry: a walk from [source], last name first. *)
Fixpoint trail (G : nx.Graph) (source : string) (q : list string) : Prop :=
  match q with
  | [] => False
  | [v] => v = source
  | v :: ((u :: _) as q') => v ∈ nx.adj G u ∧ trail G source q'
  end.

(** The names waiting in a frontier. *)
Definition heads (frontier : list (list string)) : list string :=
  omap head frontier.

(** A name is expanded when it is not the target and all its neighbours
    are seen; the seen names are settled when each of them waits in the
    frontier or is expanded. *)
Definition expanded (G : nx.Graph) (t : string) (seen : gset string)
    (u : string) : Prop :=
  u ≠ t ∧ nx.adj G u ⊆ seen.

Definition settled (G : nx.Graph) (t : string) (seen : gset string)
    (frontier : list (list string)) : Prop :=
  ∀ u, u ∈ seen → u ∈ heads frontier ∨ expanded G t seen u.

(** What the search keeps true: the source is seen, only nodes are seen,
    and the seen names are settled. *)
Definition bfs_inv (G : nx.Graph) (s t : string) (seen : gset string)
    (frontier : list (list string)) : Prop :=
  s ∈ seen ∧ seen ⊆ dom G ∧ settled G t seen frontier.

(** The frontier by levels: first the entries of [L] edges, then those of
    [L + 1] edges; every name fewer than [L] edges from the source is
    expanded, and every name [L] edges from it is seen, and waits among the
    first entries or is expanded. *)
Definition bfs_levels (G : nx.Graph) (s t : string) (L : nat)
    (seen : gset string) (F1 F2 : list (list string)) : Prop :=
  Forall (λ q, length q = S L) F1
  ∧ Forall (λ q, length q = S (S L)) F2
  ∧ (F1 = [] → F2 = [])
  ∧ settled G t seen (F1 ++ F2)
  ∧ (∀ x k, nsteps (neighbour G) k s x → (k < L)%nat → expanded G t seen x)
  ∧ (∀ x, nsteps (neighbour G) L s x →
          x ∈ seen ∧ (x ∈ heads F1 ∨ expanded G t seen x)).

(** A set of names that no edge leaves. *)
Definition closed (G : nx.Graph) (S : gset string) : Prop :=
  set_Forall (λ u, nx.adj G u ⊆ S) S.

(** ** Publication sources and folders used as examples *)

Definition pub (l : list string) : Result := {| authors := l |}.

(** [A] has one publication with [B] and [C], [B] one with [A] and [D]. *)
Definition stub_ABCD (w : unit) (a : string) : unit * result (list Result) :=
  (w, Ok (if decide (a = "A") then [pub ["B"; "C"]]
          else if decide (a = "B") then [pub ["A"; "D"]]
          else [])).

(** A folder with one edge file that has a row of three fields and an
    empty row, next to a file that is no edge file. *)
Definition folder_malformed : folder :=
  [("net.csv",
    [["Author1"; "Author2"]; ["A"; "B"]; ["A"; "B"; "C"]; ["B"; "C"]; []]);
   ("notes.txt", [])].

(** An edge file with a row that names the same author twice. *)
Definition folder_self : folder :=
  [("loop.csv", [["Author1"; "Author2"]; ["A"; "A"]])].

(** The graph that is only the self-edge [A]-[A]. *)
Definition G_self : nx.Graph := <["A" := {["A"]}]> ∅.

(** The edge [A]-[B] and the isolated node [C], with the walk in insertion
    order. *)
Definition G_AB_C : nx.Graph :=
  nx.add_node (nx.add_edge nx.empty "A" "B") "C".
Definition view_AB_C : nx.view := [("A", ["B"]); ("B", ["A"]); ("C", [])].

(** The chain [A]-[B]-[C]-[D] and, apart from it, the edge [Y]-[Z]. *)
Definition G_chain : nx.Graph :=
  nx.add_edge
    (nx.add_edge (nx.add_edge (nx.add_edge nx.empty "A" "B") "B" "C") "C" "D")
    "Y" "Z".

(** Two edge files that both hold the edge [A]-[B]. *)
Definition folder_one : folder :=
  [("one.csv", [["Author1"; "Author2"]; ["A"; "B"]])].
Definition folder_two : folder :=
  [("two.csv", [["Author1"; "Author2"]; ["A"; "B"]; ["B"; "C"]])].

(** An edge file followed by a file without any row. *)
Definition folder_empty_file : folder :=
  [("one.csv", [["Author1"; "Author2"]; ["A"; "B"]]); ("empty.csv", [])].

(** The graph with the edges [A]-[B] and [A]-[C]. *)
Definition G_ABC : nx.Graph :=
  <["A" := {["B"; "C"]}]> (<["B" := {["A"]}]> (<["C" := {["A"]}]> ∅)).

(** [A] has one publication with [B]; the query for [B] fails. *)
Definition stub_B_fails (w : unit) (a : string) : unit * result (list Result) :=
  (w, if decide (a = "B") then Raise (SourceError "HTTP 503")
      else Ok (if decide (a = "A") then [pub ["A"; "B"; "C"]] else [])).

(** ** arxiv_client.py: display_publication_info *)

(** [arxiv.Result] with all the attributes [display_publication_info]
    reads: [published_year] is [result.published.year], [author_names] the
    names of [result.authors]. *)
Record ResultInfo : Type := {
  title : string;
  published_year : Z;
  categories : list string;
  author_names : list string;
  entry_id : string
}.

(** [sep.join(l)] *)
Fixpoint join (sep : string) (l : list string) : string :=
  match l with
  | [] => ""
  | [x] => x
  | x :: l' => x +:+ sep +:+ join sep l'
  end.

(** ["-" * 80] *)
Definition rule : string :=
  foldr (λ _ acc, String "-"%char acc) "" (seq 0 80).

(** What one turn of [for i, result in enumerate(results, 1)] prints, one
    string for each [print]. *)
Definition publication_block (i : nat) (r : ResultInfo) : list string :=
  [ "Publication #" +:+ pretty i +:+ ":";
    "Title: " +:+ title r;
    "Year: " +:+ pretty (published_year r);
    "Field: " +:+ join ", " (categories r);
    "Authors: " +:+ join ", " (author_names r);
    "URL: " +:+ entry_id r;
    rule ].

Fixpoint publication_blocks (i : nat) (results : list ResultInfo)
  : list string :=
  match results with
  | [] => []
  | r :: results' => publication_block i r ++ publication_blocks (S i) results'
  end.

(** [display_publication_info]: the strings printed, in order. *)
Definition display_publication_info (results : list ResultInfo)
  : list string :=
  match results with
  | [] => ["No publications found for this author."]
  | _ =>
      ("Found " +:+ pretty (length results) +:+ " publications:")
        :: rule :: publication_blocks 1 results
  end.

(** ** graph_client.py: save_edges_to_json and save_edges_to_sigma_json *)

(** An object [{"source": u, "target": v}] of the edge list. *)
Record json_edge : Type := { source : string; target : string }.

(** [save_edges_to_json]: the path of the file and the list dumped to it. *)
Definition save_edges_to_json (G_view : nx.view) (author : string)
    (max_depth : Z) : string * list json_edge :=
  let filename :=
    "../json_database/" +:+ "collaboration_network_" +:+ remove_spaces author
      +:+ "_depth_" +:+ pretty max_depth +:+ ".json" in
  (filename,
   (λ e : string * string, {| source := e.1; target := e.2 |})
     <$> nx.edges_in G_view).

(** The objects of the Sigma.js file: [{"id": n, "label": n}] and
    [{"id": f"{u}_{v}", "source": u, "target": v}]. *)
Record sigma_node : Type := { node_id : string; label : string }.
Record sigma_edge : Type :=
  { edge_id : string; edge_source : string; edge_target : string }.

(** [f"{u}_{v}"] *)
Definition sigma_edge_id (u v : string) : string := u +:+ "_" +:+ v.

(** [save_edges_to_sigma_json]: the path of the file, and the ["nodes"] and
    ["edges"] lists of the dictionary dumped to it. [G.nodes()] walks the
    nodes in the order of the adjacency. *)
Definition save_edges_to_sigma_json (G_view : nx.view) (author : string)
    (max_depth : Z) : string * (list sigma_node * list sigma_edge) :=
  let filename :=
    "../sigma_json_database/" +:+ "collaboration_network_"
      +:+ remove_spaces author +:+ "_depth_" +:+ pretty max_depth
      +:+ ".json" in
  (filename,
   ((λ n : string, {| node_id := n; label := n |}) <$> G_view.*1,
    (λ e : string * string,
       {| edge_id := sigma_edge_id e.1 e.2;
          edge_source := e.1; edge_target := e.2 |})
      <$> nx.edges_in G_view)).

(** ** The records put in the queue *)

Section BuildLog.

Context {W : Type}.
Variable search : W → string → W * result (list Result).

(** The records one turn of the loop puts in the queue, in the order of the
    calls of [queue.append]: what the walk over the results does to an
    empty queue. A record that is dropped, an author at the depth bound and
    a query that fails put nothing in it. *)
Definition turn_enqueues (max_depth : Z) (st : state (W:=W))
    (current_author : string) (depth : Z) : list (string * Z) :=
  if decide (current_author ∈ processed_authors st) then []
  else if depth >=? max_depth then []
  else
    match (search (world st) current_author).2 with
    | Ok results =>
        (visit_results current_author depth
           (processed_authors st ∪ {[current_author]}) (G st, []) results).2
    | Raise _ => []
    end.

(** The records put in the queue during a run of the loop, in that order. *)
Fixpoint enqueued (fuel : nat) (max_depth : Z) (st : state (W:=W))
  : list (string * Z) :=
  match queue st with
  | [] => []
  | (current_author, depth) :: rest =>
      match fuel with
      | O => []
      | S fuel' =>
          turn_enqueues max_depth st current_author depth
            ++ match loop_body search max_depth st current_author depth rest
               with
               | (st', None) => enqueued fuel' max_depth st'
               | (_, Some _) => []
               end
      end
  end.

End BuildLog.

(** Of a list of records, the first record of every author not in [seen]. *)
Fixpoint first_records (seen : gset string) (l : list (string * Z))
  : list (string * Z) :=
  match l with
  | [] => []
  | (a, d) :: l' =>
      if decide (a ∈ seen) then first_records seen l'
      else (a, d) :: first_records (seen ∪ {[a]}) l'
  end.

(** The authors to ask about, given the records in the order in which they
    were put in the queue: those whose first record is below the depth
    bound, in the order of these first records. *)
Definition expanded_authors (max_depth : Z) (records : list (string * Z))
  : list string :=
  (filter (λ r, (r.2 < max_depth)%Z) (first_records ∅ records)).*1.

(** [A] has one publication with [B] and [C], [B] one with [C]: [C] is put
    in the queue at depth 1 and again at depth 2. *)
Definition stub_twice (w : unit) (a : string) : unit * result (list Result) :=
  (w, Ok (if decide (a = "A") then [pub ["A"; "B"; "C"]]
          else if decide (a = "B") then [pub ["B"; "C"]]
          else [])).

(** ** Notions used to state further properties *)

(** A publication source that never raises. *)
Definition answers {W : Type}
    (search : W → string → W * result (list Result)) : Prop :=
  ∀ w a, ∃ rs, (search w a).2 = Ok rs.

(** At most [bound] edges lead from [seed] to [n]. *)
Definition within (G : nx.Graph) (seed : string) (bound : Z) (n : string)
  : Prop :=
  ∃ k, (Z.of_nat k ≤ bound)%Z ∧ nsteps (neighbour G) k seed n.

(** The nodes of the graph are the processed and the queued authors, and
    the start author is among them. *)
Definition nodes_accounted {W : Type} (start_author : string)
    (st : state (W:=W)) : Prop :=
  processed_authors st ⊆ dom (G st)
  ∧ (∀ n, n ∈ dom (G st) →
          n ∈ processed_authors st ∨ n ∈ (queue st).*1)
  ∧ (start_author ∈ processed_authors st ∨ start_author ∈ (queue st).*1).

(** The same of an accumulator of the walk over the results of [a]. *)
Definition acc_accounted (processed : gset string) (start_author : string)
    (acc : nx.Graph * list (string * Z)) : Prop :=
  processed ⊆ dom acc.1
  ∧ (∀ n, n ∈ dom acc.1 → n ∈ processed ∨ n ∈ acc.2.*1)
  ∧ (start_author ∈ processed ∨ start_author ∈ acc.2.*1).

(** Every queued record carries the number of edges of a walk from the
    start author, at most the depth bound, and every node is within the
    depth bound of the start author. *)
Definition hops_bounded (start_author : string) (max_depth : Z)
    (g : nx.Graph) (q : list (string * Z)) : Prop :=
  (∀ c d, (c, d) ∈ q →
          (0 ≤ d)%Z ∧ (d ≤ Z.max 0 max_depth)%Z
          ∧ nsteps (neighbour g) (Z.to_nat d) start_author c)
  ∧ (∀ n, n ∈ dom g → within g start_author (Z.max 0 max_depth) n).

(** Every edge has an endpoint among the names in [asked]. *)
Definition edges_touch (asked : list string) (g : nx.Graph) : Prop :=
  ∀ u v, v ∈ nx.adj g u → u ∈ asked ∨ v ∈ asked.

(** The folder with the first row of every file that has one replaced. *)
Definition replace_header (h : list string) (f : string * csv_file)
  : string * csv_file :=
  (f.1, match f.2 with [] => [] | _ :: data => h :: data end).

(** Example data for the further properties. *)
Definition views_chain : nx.view :=
  [("A", ["B"]); ("B", ["A"; "C"]); ("C", ["B"; "D"]); ("D", ["C"]);
   ("Y", ["Z"]); ("Z", ["Y"])].

Definition info_1 : ResultInfo :=
  {| title := "On graphs"; published_year := 2021;
     categories := ["cs.DM"; "math.CO"];
     author_names := ["A"; "B"]; entry_id := "http://arxiv.org/abs/1" |}.

(** Every author writes alone. *)
Definition stub_alone (w : unit) (a : string) : unit * result (list Result) :=
  (w, Ok [pub [a]; pub [a]]).

(** * Properties *)

(** ** The graph operations *)

Section GraphFacts.

Implicit Types (G : nx.Graph) (u v n x : string).

Lemma has_node_dom G n : nx.has_node G n = true ↔ n ∈ dom G.
Proof.
  unfold nx.has_node. rewrite bool_decide_eq_true. symmetry. apply elem_of_dom.
Qed.

Lemma has_node_false G n : nx.has_node G n = false ↔ n ∉ dom G.
Proof. rewrite <- has_node_dom. destruct (nx.has_node G n); naive_solver. Qed.

Lemma adj_lookup G n s : G !! n = Some s → nx.adj G n = s.
Proof. unfold nx.adj. by intros ->. Qed.

Lemma adj_not_node G n : n ∉ dom G → nx.adj G n = ∅.
Proof. unfold nx.adj. intros ?%not_elem_of_dom. by rewrite H. Qed.

Lemma lookup_node G n : n ∈ dom G → G !! n = Some (nx.adj G n).
Proof. intros [s Hs]%elem_of_dom. by rewrite (adj_lookup _ _ _ Hs). Qed.

Lemma adj_nonempty_node G n x : x ∈ nx.adj G n → n ∈ dom G.
Proof.
  intros Hx. destruct (decide (n ∈ dom G)) as [|Hn]; [done|].
  rewrite (adj_not_node _ _ Hn) in Hx. set_solver.
Qed.

(** A graph is its node set together with its adjacency sets. *)
Lemma graph_eq G1 G2 :
  dom G1 = dom G2 → (∀ n, nx.adj G1 n = nx.adj G2 n) → G1 = G2.
Proof.
  intros Hd Ha. apply map_eq. intros n.
  destruct (decide (n ∈ dom G1)) as [Hn|Hn].
  - rewrite (lookup_node _ _ Hn). rewrite Hd in Hn.
    rewrite (lookup_node _ _ Hn). by rewrite Ha.
  - pose proof Hn as Hn2. rewrite Hd in Hn2.
    apply not_elem_of_dom in Hn, Hn2. by rewrite Hn, Hn2.
Qed.

Lemma dom_add_node G n : dom (nx.add_node G n) = dom G ∪ {[n]}.
Proof.
  unfold nx.add_node. destruct (G !! n) eqn:E.
  - apply (elem_of_dom_2 G) in E. set_solver.
  - rewrite dom_insert_L. set_solver.
Qed.

Lemma adj_add_node G n x : nx.adj (nx.add_node G n) x = nx.adj G x.
Proof.
  unfold nx.add_node. destruct (G !! n) eqn:E; [done|].
  unfold nx.adj. destruct (decide (n = x)) as [->|Hne].
  - by rewrite lookup_insert_eq, E.
  - by rewrite lookup_insert_ne.
Qed.

Lemma dom_add_edge G u v : dom (nx.add_edge G u v) = dom G ∪ {[u; v]}.
Proof.
  unfold nx.add_edge. rewrite !dom_insert_L, !dom_add_node. set_solver.
Qed.

Lemma adj_insert G n s x :
  nx.adj (<[n := s]> G) x = if decide (n = x) then s else nx.adj G x.
Proof.
  unfold nx.adj. rewrite lookup_insert. by destruct (decide (n = x)).
Qed.

Lemma elem_of_adj_add_edge G u v n x :
  x ∈ nx.adj (nx.add_edge G u v) n
  ↔ x ∈ nx.adj G n ∨ (n = u ∧ x = v) ∨ (n = v ∧ x = u).
Proof.
  unfold nx.add_edge. rewrite !adj_insert, !adj_add_node.
  repeat case_decide; set_solver.
Qed.

Lemma symmetric_empty : nx.symmetric nx.empty.
Proof. intros u v. unfold nx.adj, nx.empty. rewrite lookup_empty. set_solver. Qed.

Lemma symmetric_add_node G n : nx.symmetric G → nx.symmetric (nx.add_node G n).
Proof. intros HG u v. rewrite !adj_add_node. apply HG. Qed.

Lemma symmetric_add_edge G u v :
  nx.symmetric G → nx.symmetric (nx.add_edge G u v).
Proof.
  intros HG a b. rewrite !elem_of_adj_add_edge. specialize (HG a b). tauto.
Qed.

Lemma no_self_loops_empty : nx.no_self_loops nx.empty.
Proof. intros u. unfold nx.adj, nx.empty. rewrite lookup_empty. set_solver. Qed.

Lemma no_self_loops_add_node G n :
  nx.no_self_loops G → nx.no_self_loops (nx.add_node G n).
Proof. intros HG u. rewrite adj_add_node. apply HG. Qed.

Lemma no_self_loops_add_edge G u v :
  u ≠ v → nx.no_self_loops G → nx.no_self_loops (nx.add_edge G u v).
Proof.
  intros Hne HG a. rewrite elem_of_adj_add_edge. specialize (HG a).
  intros [?|[[-> ->]|[-> ->]]]; done.
Qed.

End GraphFacts.

(** ** build_collaboration_network: the loop *)

Section BuildFacts.

Context {W : Type} (search : W → string → W * result (list Result)).

Implicit Types (st : state (W:=W)) (o : outcome (W:=W)).
Implicit Types (acc : nx.Graph * list (string * Z)).

(** What the walk over the results of one author does to the queue: it
    appends records one level deeper, and nothing else. *)
Lemma visit_coauthor_queue a d P acc c :
  ∃ news, (visit_coauthor a d P acc c).2 = acc.2 ++ news
          ∧ Forall (λ x, x.2 = d + 1) news.
Proof.
  unfold visit_coauthor. repeat case_decide; simpl.
  - exists [(c, d + 1)]. split; [done|]. by constructor.
  - exists []. by rewrite app_nil_r.
  - exists []. by rewrite app_nil_r.
Qed.

Lemma visit_coauthors_queue a d P cs : ∀ acc,
  ∃ news, (foldl (visit_coauthor a d P) acc cs).2 = acc.2 ++ news
          ∧ Forall (λ x, x.2 = d + 1) news.
Proof.
  induction cs as [|c cs IH]; intros acc; simpl.
  - exists []. by rewrite app_nil_r.
  - destruct (visit_coauthor_queue a d P acc c) as (n1 & E1 & F1).
    destruct (IH (visit_coauthor a d P acc c)) as (n2 & E2 & F2).
    exists (n1 ++ n2). rewrite E2, E1, app_assoc. split; [done|].
    by apply Forall_app.
Qed.

Lemma visit_results_queue a d P rs : ∀ acc,
  ∃ news, (visit_results a d P acc rs).2 = acc.2 ++ news
          ∧ Forall (λ x, x.2 = d + 1) news.
Proof.
  unfold visit_results. induction rs as [|r rs IH]; intros acc; simpl.
  - exists []. by rewrite app_nil_r.
  - destruct (visit_coauthors_queue a d P (get_coauthors r) acc)
      as (n1 & E1 & F1).
    destruct (IH (foldl (visit_coauthor a d P) acc (get_coauthors r)))
      as (n2 & E2 & F2).
    exists (n1 ++ n2). rewrite E2, E1, app_assoc. split; [done|].
    by apply Forall_app.
Qed.

(** What it does to the graph: only [add_edge] from the current author to
    a different name. *)
Lemma visit_results_graph (I : nx.Graph → Prop) a d P rs :
  (∀ G c, c ≠ a → I G → I (nx.add_edge G a c)) →
  ∀ acc, I acc.1 → I (visit_results a d P acc rs).1.
Proof.
  intros Hstep. unfold visit_results.
  assert (Hcs : ∀ cs acc, I acc.1 → I (foldl (visit_coauthor a d P) acc cs).1).
  { induction cs as [|c cs IH]; intros acc Hacc; simpl; [done|].
    apply IH. unfold visit_coauthor. case_decide; simpl; auto. }
  induction rs as [|r rs IH]; intros acc Hacc; simpl; [done|].
  apply IH, Hcs, Hacc.
Qed.

(** One turn that raises nothing leaves the rest of the queue followed by
    records strictly closer to the depth bound than the one taken. *)
Lemma loop_body_queue m st a d rest st' :
  loop_body search m st a d rest = (st', None) →
  ∃ news, queue st' = rest ++ news
          ∧ Forall (λ x, (weight m x < weight m (a, d))%nat) news.
Proof.
  unfold loop_body. case_decide.
  { intros [= <-]. exists []. by rewrite app_nil_r. }
  destruct (Z.geb_spec d m) as [Hge|Hlt].
  { intros [= <-]. exists []. by rewrite app_nil_r. }
  destruct (search (world st) a) as [w [[|r rs]|e]]; [| |done].
  { intros [= <-]. exists []. by rewrite app_nil_r. }
  match goal with
  | |- context [visit_results ?a ?d ?P ?acc ?rs] =>
      destruct (visit_results_queue a d P rs acc) as (news & E & F);
      destruct (visit_results a d P acc rs) as [G2 q] eqn:EV
  end.
  intros [= <-]. simpl in *. exists news. split; [done|].
  eapply Forall_impl; [exact F|]. intros [c dc]; unfold weight; simpl.
  intros ->. lia.
Qed.

(** Fuel beyond what a run needs changes nothing. *)
Lemma while_queue_more_fuel m fuel : ∀ st k,
  halted (while_queue search fuel m st) →
  while_queue search (fuel + k) m st = while_queue search fuel m st.
Proof.
  induction fuel as [|fuel IH]; intros st k; simpl.
  - destruct (queue st) as [|[a d] rest] eqn:E; [|done].
    intros _. destruct k; simpl; by rewrite E.
  - destruct (queue st) as [|[a d] rest]; [done|].
    destruct (loop_body search m st a d rest) as [st' [e|]]; [done|].
    apply IH.
Qed.

(** The loop ends: by induction on the level bound, then on the records at
    the front of the queue that may still be at that level. *)
Lemma while_queue_halts_level m k : ∀ q1 q2,
  Forall (λ x, (weight m x ≤ k)%nat) q1 →
  Forall (λ x, (weight m x < k)%nat) q2 →
  ∀ g P asked w,
    ∃ fuel, halted (while_queue search fuel m (mkState g P (q1 ++ q2) asked w)).
Proof.
  induction k as [|k IHk]; intros q1.
  - induction q1 as [|[a d] q1 IH]; intros q2 H1 H2 g P asked w.
    + destruct q2 as [|x q2]; [by exists O|].
      apply Forall_cons in H2 as [? _]. lia.
    + apply Forall_cons in H1 as [Ha H1].
      rewrite <- app_comm_cons.
      destruct (loop_body search m (mkState g P ((a, d) :: q1 ++ q2) asked w)
                  a d (q1 ++ q2)) as [st' [e|]] eqn:E.
      { exists 1%nat. simpl. by rewrite E. }
      destruct (loop_body_queue _ _ _ _ _ _ E) as (news & Eq & F).
      destruct news as [|y news];
        [|apply Forall_cons in F as [? _]; simpl in *; lia].
      rewrite app_nil_r in Eq. destruct st' as [g' P' q' asked' w'].
      simpl in Eq. subst q'.
      destruct (IH q2 H1 H2 g' P' asked' w') as [fuel Hf].
      exists (S fuel). simpl. by rewrite E.
  - induction q1 as [|[a d] q1 IH]; intros q2 H1 H2 g P asked w.
    + destruct (IHk q2 [] ) with (g := g) (P := P) (asked := asked) (w := w)
        as [fuel Hf].
      * eapply Forall_impl; [exact H2|]. simpl. intros; lia.
      * constructor.
      * exists fuel. by rewrite app_nil_r in Hf.
    + apply Forall_cons in H1 as [Ha H1].
      rewrite <- app_comm_cons.
      destruct (loop_body search m (mkState g P ((a, d) :: q1 ++ q2) asked w)
                  a d (q1 ++ q2)) as [st' [e|]] eqn:E.
      { exists 1%nat. simpl. by rewrite E. }
      destruct (loop_body_queue _ _ _ _ _ _ E) as (news & Eq & F).
      destruct st' as [g' P' q' asked' w']. simpl in Eq. subst q'.
      destruct (IH (q2 ++ news)) with (g := g') (P := P') (asked := asked')
        (w := w') as [fuel Hf].
      * done.
      * apply Forall_app. split; [done|].
        eapply Forall_impl; [exact F|]. simpl. intros; lia.
      * exists (S fuel). simpl. rewrite E. by rewrite <- app_assoc.
Qed.

Lemma while_queue_halts m st :
  ∃ fuel, halted (while_queue search fuel m st).
Proof.
  destruct st as [g P q asked w].
  pose (k := foldr (λ x (b : nat), Nat.max (weight m x) b) O q).
  destruct (while_queue_halts_level m (S k) q []) with
    (g := g) (P := P) (asked := asked) (w := w) as [fuel Hf].
  - subst k. induction q as [|x q IH]; constructor; simpl.
    + lia.
    + eapply Forall_impl; [exact IH|]. simpl. intros; lia.
  - constructor.
  - exists fuel. by rewrite app_nil_r in Hf.
Qed.

(** Every call of [build_collaboration_network] ends, with a graph or with
    an exception. *)
Lemma build_halts w start_author max_depth :
  ∃ fuel,
    halted (build_collaboration_network search fuel w start_author max_depth).
Proof. apply while_queue_halts. Qed.

(** A property of the loop state that every turn keeps holds whenever and
    however the loop stops. *)
Lemma while_queue_invariant (I : state → Prop) m :
  (∀ st a d rest, I st → queue st = (a, d) :: rest →
                  I (loop_body search m st a d rest).1) →
  ∀ fuel st, I st → I (final (while_queue search fuel m st)).
Proof.
  intros Hstep. induction fuel as [|fuel IH]; intros st Hst; simpl.
  - by destruct (queue st) as [|[a d] rest].
  - destruct (queue st) as [|[a d] rest] eqn:E; [done|].
    specialize (Hstep st a d rest Hst E).
    destruct (loop_body search m st a d rest) as [st' [e|]]; simpl in *;
      [done|by apply IH].
Qed.

End BuildFacts.

Section BuildClaims.

Context {W : Type} (search : W → string → W * result (list Result)).

Implicit Types (st : state (W:=W)).

(** A record whose author is already processed is dropped: nothing but the
    queue changes, whatever its depth. *)
Lemma loop_body_processed m st a d rest :
  a ∈ processed_authors st →
  loop_body search m st a d rest
  = (mkState (G st) (processed_authors st) rest (queried st) (world st), None).
Proof. intros Ha. unfold loop_body. by rewrite decide_True. Qed.

(** A new author is marked processed, and is asked about exactly when the
    depth of this record is below the bound. *)
Lemma loop_body_fresh m st a d rest :
  a ∉ processed_authors st →
  processed_authors (loop_body search m st a d rest).1
  = processed_authors st ∪ {[a]}
  ∧ queried (loop_body search m st a d rest).1
    = if d >=? m then queried st else queried st ++ [a].
Proof.
  intros Ha. unfold loop_body. rewrite decide_False by done.
  destruct (d >=? m); [done|].
  destruct (search (world st) a) as [w [[|r rs]|e]]; try done.
  by destruct (visit_results _ _ _ _ _).
Qed.

Lemma loop_body_asked_once m st a d rest :
  asked_once st → asked_once (loop_body search m st a d rest).1.
Proof.
  intros [Hnd Hsub].
  destruct (decide (a ∈ processed_authors st)) as [Ha|Ha].
  { rewrite loop_body_processed by done. by split. }
  destruct (loop_body_fresh m st a d rest Ha) as [EP EQ].
  unfold asked_once. rewrite EP, EQ. destruct (d >=? m).
  - split; [done|]. intros b Hb. apply Hsub in Hb. set_solver.
  - split.
    + apply NoDup_app. split; [done|]. split; [|apply NoDup_singleton].
      intros b Hb ->%list_elem_of_singleton. by apply Ha, Hsub.
    + intros b [Hb| ->%list_elem_of_singleton]%elem_of_app; [|set_solver].
      apply Hsub in Hb. set_solver.
Qed.

Lemma loop_body_no_self_loops m st a d rest :
  nx.no_self_loops (G st) →
  nx.no_self_loops (G (loop_body search m st a d rest).1).
Proof.
  intros HG. unfold loop_body. case_decide; [done|].
  set (G1 := if nx.has_node (G st) a then G st else nx.add_node (G st) a).
  assert (H1 : nx.no_self_loops G1).
  { subst G1. destruct (nx.has_node (G st) a); [done|].
    by apply no_self_loops_add_node. }
  destruct (d >=? m); [done|].
  destruct (search (world st) a) as [w [[|r rs]|e]]; try done.
  match goal with
  | |- context [visit_results ?a ?d ?P ?acc ?rs] =>
      pose proof (visit_results_graph nx.no_self_loops a d P rs) as HV;
      specialize (HV (λ g c Hc, no_self_loops_add_edge g a c (not_eq_sym Hc))
                     acc H1);
      destruct (visit_results a d P acc rs)
  end.
  exact HV.
Qed.

Lemma loop_body_symmetric m st a d rest :
  nx.symmetric (G st) →
  nx.symmetric (G (loop_body search m st a d rest).1).
Proof.
  intros HG. unfold loop_body. case_decide; [done|].
  set (G1 := if nx.has_node (G st) a then G st else nx.add_node (G st) a).
  assert (H1 : nx.symmetric G1).
  { subst G1. destruct (nx.has_node (G st) a); [done|].
    by apply symmetric_add_node. }
  destruct (d >=? m); [done|].
  destruct (search (world st) a) as [w [[|r rs]|e]]; try done.
  match goal with
  | |- context [visit_results ?a ?d ?P ?acc ?rs] =>
      pose proof (visit_results_graph nx.symmetric a d P rs) as HV;
      specialize (HV (λ g c _, symmetric_add_edge g a c) acc H1);
      destruct (visit_results a d P acc rs)
  end.
  exact HV.
Qed.

(** The graph of a build is an undirected graph at every moment. *)
Lemma build_symmetric fuel w start_author max_depth :
  nx.symmetric
    (G (final (build_collaboration_network search fuel w start_author
                 max_depth))).
Proof.
  apply (while_queue_invariant search (λ st, nx.symmetric (G st))).
  - intros st a d rest H _. by apply loop_body_symmetric.
  - apply symmetric_empty.
Qed.

Lemma build_no_self_loops fuel w start_author max_depth :
  nx.no_self_loops
    (G (final (build_collaboration_network search fuel w start_author
                 max_depth))).
Proof.
  apply (while_queue_invariant search (λ st, nx.no_self_loops (G st))).
  - intros st a d rest H _. by apply loop_body_no_self_loops.
  - apply no_self_loops_empty.
Qed.

(** C3. For every seed and every publication source, a build with depth
    bound 0 returns, after one turn of the loop, the graph whose only node
    is the seed and which has no edge, and the source was asked nothing:
    the list of queried names is empty and the world is the initial one. *)
Theorem build_depth_zero (w : W) (start_author : string) (fuel : nat) :
  ∃ st,
    build_collaboration_network search (S fuel) w start_author 0 = Returned st
    ∧ G st = {[start_author := ∅]}
    ∧ nx.nodes (G st) = {[start_author]}
    ∧ nx.number_of_nodes (G st) = 1%nat
    ∧ nx.number_of_edges (G st) = 0%nat
    ∧ queried st = []
    ∧ world st = w.
Proof.
  eexists. split.
  - unfold build_collaboration_network, init. simpl.
    unfold loop_body. simpl. rewrite decide_False by set_solver.
    unfold nx.has_node, nx.empty. rewrite lookup_empty.
    rewrite bool_decide_eq_false_2 by (by intros [? ?]).
    simpl. destruct fuel; reflexivity.
  - simpl. unfold nx.add_node, nx.empty. rewrite lookup_empty.
    rewrite insert_empty.
    unfold nx.nodes, nx.number_of_nodes, nx.number_of_edges, nx.edges,
      nx.items.
    rewrite dom_singleton_L, size_singleton, map_to_list_singleton. simpl.
    rewrite elements_empty. done.
Qed.

(** The walk over the results only appends to the queue, and what it
    appends does not depend on the graph or on the queue it starts from. *)
Lemma visit_results_appends a d P rs :
  ∃ news, ∀ acc : nx.Graph * list (string * Z),
    (visit_results a d P acc rs).2 = acc.2 ++ news.
Proof.
  assert (Hc : ∀ c, ∃ news, ∀ acc : nx.Graph * list (string * Z),
                 (visit_coauthor a d P acc c).2 = acc.2 ++ news).
  { intros c. unfold visit_coauthor. repeat case_decide.
    - by exists [(c, d + 1)].
    - exists []. intros acc. by rewrite app_nil_r.
    - exists []. intros acc. by rewrite app_nil_r. }
  assert (Hcs : ∀ cs, ∃ news, ∀ acc : nx.Graph * list (string * Z),
                  (foldl (visit_coauthor a d P) acc cs).2 = acc.2 ++ news).
  { induction cs as [|c cs [n2 H2]]; simpl.
    - exists []. intros acc. by rewrite app_nil_r.
    - destruct (Hc c) as [n1 H1]. exists (n1 ++ n2). intros acc.
      by rewrite H2, H1, <- app_assoc. }
  unfold visit_results. induction rs as [|r rs [n2 H2]]; simpl.
  - exists []. intros acc. by rewrite app_nil_r.
  - destruct (Hcs (get_coauthors r)) as [n1 H1]. exists (n1 ++ n2).
    intros acc. by rewrite H2, H1, <- app_assoc.
Qed.

(** The queue after a turn that raises nothing: the rest of the queue, then
    the records of this turn. The queue is first in, first out. *)
Lemma loop_body_enqueues m st a d rest st' :
  loop_body search m st a d rest = (st', None) →
  queue st' = rest ++ turn_enqueues search m st a d.
Proof.
  unfold loop_body, turn_enqueues. case_decide.
  { intros [= <-]. by rewrite app_nil_r. }
  destruct (d >=? m).
  { intros [= <-]. by rewrite app_nil_r. }
  destruct (search (world st) a) as [w res]. cbn [snd].
  destruct res as [[|r rs]|e]; [| |done].
  { intros [= <-]. by rewrite app_nil_r. }
  cbv beta iota zeta.
  match goal with
  | |- context [visit_results ?a ?d ?P (?g, rest) ?rs] =>
      destruct (visit_results_appends a d P rs) as [news E];
      pose proof (E (g, rest)) as E1; pose proof (E (G st, [])) as E2;
      destruct (visit_results a d P (g, rest) rs) as [G2 q] eqn:EV
  end.
  intros [= <-]. simpl in *. by rewrite E2, E1.
Qed.

(** A turn that raises is one that asks about a new author below the
    depth bound, and it puts nothing in the queue. *)
Lemma loop_body_raises m st a d rest st' e :
  loop_body search m st a d rest = (st', Some e) →
  (a ∉ processed_authors st) ∧ (d < m)%Z
  ∧ turn_enqueues search m st a d = [] ∧ queue st' = rest.
Proof.
  unfold loop_body, turn_enqueues. case_decide; [done|].
  destruct (Z.geb_spec d m); [done|].
  destruct (search (world st) a) as [w res]. cbn [snd].
  destruct res as [[|r rs]|e'].
  - done.
  - cbv beta iota zeta. by destruct (visit_results _ _ _ (_, rest) _).
  - by intros [= <- _].
Qed.

(** The records put in the queue so far are those taken from it, in the
    same order, followed by the queue; and the authors asked about are
    those whose first record taken from the queue is below the depth
    bound. *)
Lemma while_queue_first_in_first_out m fuel : ∀ st,
  ∃ dequeued,
    queue st ++ enqueued search fuel m st
    = dequeued ++ queue (final (while_queue search fuel m st))
    ∧ queried (final (while_queue search fuel m st))
      = queried st
          ++ (filter (λ r, (r.2 < m)%Z)
                (first_records (processed_authors st) dequeued)).*1
    ∧ processed_authors (final (while_queue search fuel m st))
      = processed_authors st ∪ list_to_set dequeued.*1.
Proof.
  induction fuel as [|fuel IH]; intros st; simpl.
  { exists []. destruct (queue st) as [|[a d] rest] eqn:E; simpl;
      rewrite ?E, !app_nil_r; (split; [done|split; [done|set_solver]]). }
  destruct (queue st) as [|[a d] rest] eqn:E.
  { exists []. simpl. rewrite E, !app_nil_r. split; [done|].
    split; [done|set_solver]. }
  destruct (loop_body search m st a d rest) as [st1 [e|]] eqn:Eb.
  - destruct (loop_body_raises _ _ _ _ _ _ _ Eb) as (Ha & Hd & -> & Hq).
    destruct (loop_body_fresh m st a d rest Ha) as [EP EQ].
    rewrite Eb in EP, EQ. simpl in EP, EQ.
    exists [(a, d)]. simpl. rewrite Hq, EP, EQ.
    rewrite decide_False by done.
    rewrite filter_cons_True by done.
    destruct (Z.geb_spec d m); [lia|].
    split; [by rewrite app_nil_r|]. split; [done|set_solver].
  - destruct (IH st1) as (D & HD & HQ & HP).
    pose proof (loop_body_enqueues _ _ _ _ _ _ Eb) as Hq.
    exists ((a, d) :: D). split.
    { rewrite <- !app_comm_cons. f_equal.
      rewrite <- HD, Hq. by rewrite <- app_assoc. }
    rewrite HQ, HP. simpl.
    destruct (decide (a ∈ processed_authors st)) as [Ha|Ha].
    + rewrite loop_body_processed in Eb by done. injection Eb as <-.
      simpl. split; [done|set_solver].
    + destruct (loop_body_fresh m st a d rest Ha) as [EP EQ].
      rewrite Eb in EP, EQ. simpl in EP, EQ. rewrite EP, EQ.
      split; [|set_solver].
      destruct (Z.geb_spec d m).
      * rewrite filter_cons_False by (simpl; lia). done.
      * rewrite filter_cons_True by done. simpl.
        by rewrite <- app_assoc.
Qed.

(** C5. For every seed, depth bound and publication source, whenever and
    however the build stops, no author name was passed to the source twice;
    the build does stop; a dequeued record whose author is already
    processed changes nothing but the queue, whatever its depth; the
    depth of the record with which an author is first dequeued decides
    whether the author is asked about; and the queue is first in, first
    out: the records put in the queue (the start record, then every
    [queue.append] in turn) are those taken from it so far, in the same
    order, followed by the queue, and the authors asked about are exactly
    those whose first record put in the queue and taken from it is below
    the depth bound, so that when the build returns they are the authors
    whose first enqueued record is below the depth bound. *)
Theorem build_queries_each_author_once
    (w : W) (start_author : string) (max_depth : Z) :
  (∀ fuel,
     NoDup (queried (final (build_collaboration_network search fuel w
                              start_author max_depth))))
  ∧ (∃ fuel,
       halted (build_collaboration_network search fuel w start_author
                 max_depth))
  ∧ (∀ st a d rest,
       a ∈ processed_authors st →
       loop_body search max_depth st a d rest
       = (mkState (G st) (processed_authors st) rest (queried st) (world st),
          None))
  ∧ (∀ st a d rest,
       a ∉ processed_authors st →
       a ∈ processed_authors (loop_body search max_depth st a d rest).1
       ∧ queried (loop_body search max_depth st a d rest).1
         = if d >=? max_depth then queried st else queried st ++ [a])
  ∧ (∀ fuel,
       ∃ dequeued,
         (start_author, 0)
           :: enqueued search fuel max_depth (init w start_author)
         = dequeued
             ++ queue (final (build_collaboration_network search fuel w
                                start_author max_depth))
         ∧ queried (final (build_collaboration_network search fuel w
                             start_author max_depth))
           = expanded_authors max_depth dequeued)
  ∧ (∀ fuel st,
       build_collaboration_network search fuel w start_author max_depth
       = Returned st →
       queried st
       = expanded_authors max_depth
           ((start_author, 0)
              :: enqueued search fuel max_depth (init w start_author))).
Proof.
  assert (Hfifo : ∀ fuel,
    ∃ dequeued,
      (start_author, 0)
        :: enqueued search fuel max_depth (init w start_author)
      = dequeued
          ++ queue (final (build_collaboration_network search fuel w
                             start_author max_depth))
      ∧ queried (final (build_collaboration_network search fuel w
                          start_author max_depth))
        = expanded_authors max_depth dequeued).
  { intros fuel.
    destruct (while_queue_first_in_first_out max_depth fuel
                (init w start_author)) as (D & HD & HQ & _).
    exists D. split; [exact HD|]. exact HQ. }
  split; [|split; [apply build_halts|split; [|split; [|split]]]].
  - intros fuel.
    apply (while_queue_invariant search asked_once).
    + intros st a d rest H _. by apply loop_body_asked_once.
    + split; [constructor|]. intros a Ha. by apply elem_of_nil in Ha.
  - intros st a d rest. apply loop_body_processed.
  - intros st a d rest Ha.
    destruct (loop_body_fresh max_depth st a d rest Ha) as [-> ->].
    split; [set_solver|done].
  - exact Hfifo.
  - intros fuel st Hret. destruct (Hfifo fuel) as (D & HD & HQ).
    rewrite Hret in HD, HQ. simpl in HD, HQ.
    unfold build_collaboration_network in Hret.
    assert (Hq : queue st = []).
    { clear HD HQ. revert Hret. generalize (init w start_author).
      induction fuel as [|fuel IH]; intros st0; simpl.
      - destruct (queue st0) as [|[a d] rest] eqn:E; [|done].
        by intros [= <-].
      - destruct (queue st0) as [|[a d] rest] eqn:E; [by intros [= <-]|].
        destruct (loop_body search max_depth st0 a d rest) as [st1 [e|]];
          [done|]. apply IH. }
    rewrite Hq, app_nil_r in HD. by rewrite HD.
Qed.

End BuildClaims.


Lemma build_queries_each_author_once_witness :
  NoDup (queried (final (build_collaboration_network stub_ABCD 10 tt "A" 2)))
  ∧ loop_body stub_ABCD 2 (mkState nx.empty {["A"]} [("A", 1)] ["A"] tt)
      "A" 1 []
    = (mkState nx.empty {["A"]} [] ["A"] tt, None)
  ∧ queried (loop_body stub_ABCD 2 (init tt "A") "A" 0 []).1 = ["A"]
  ∧ ["A"; "B"; "C"]
    = expanded_authors 2
        (("A", 0) :: enqueued stub_twice 4 2 (init tt "A")).
Proof.
  destruct (build_queries_each_author_once stub_ABCD tt "A" 2)
    as (H1 & _ & H3 & H4 & _ & _).
  destruct (build_queries_each_author_once stub_twice tt "A" 2)
    as (_ & _ & _ & _ & _ & H6).
  split; [apply H1|]. split; [|split].
  - pose proof (H3 (mkState nx.empty {["A"]} [("A", 1)] ["A"] tt) "A" 1 [])
      as H.
    simpl in H. apply H. apply elem_of_singleton. reflexivity.
  - destruct (H4 (init tt "A") "A" 0 []) as [_ H].
    + apply not_elem_of_empty.
    + exact H.
  - apply (H6 4%nat
             (mkState
                (nx.add_edge
                   (nx.add_edge (nx.add_edge nx.empty "A" "B") "A" "C")
                   "B" "C")
                (list_to_set ["A"; "B"; "C"]) [] ["A"; "B"; "C"] tt)).
    vm_compute. reflexivity.
Defined.

(** C1. The query for [B] fails while [A]'s record is expanded to depth 2:
    the exception leaves [build_collaboration_network] on the second turn,
    with [C] still in the queue, and no amount of fuel makes the build
    return a graph. *)
Theorem build_aborts_when_query_fails :
  (∀ k, ∃ st,
      build_collaboration_network stub_B_fails (2 + k) tt "A" 2
      = Raised (SourceError "HTTP 503") st
      ∧ queue st = [("C", 1)]
      ∧ queried st = ["A"; "B"])
  ∧ (∀ fuel st,
       build_collaboration_network stub_B_fails fuel tt "A" 2 ≠ Returned st).
Proof.
  assert (H2 : ∃ st,
             build_collaboration_network stub_B_fails 2 tt "A" 2
             = Raised (SourceError "HTTP 503") st
             ∧ queue st = [("C", 1)] ∧ queried st = ["A"; "B"]).
  { vm_compute. eexists. split; [reflexivity|]. split; reflexivity. }
  assert (Hk : ∀ k, build_collaboration_network stub_B_fails (2 + k) tt "A" 2
                    = build_collaboration_network stub_B_fails 2 tt "A" 2).
  { intros k. apply while_queue_more_fuel.
    destruct H2 as (st & E & _).
    unfold build_collaboration_network in E. by rewrite E. }
  split.
  - intros k. rewrite Hk. exact H2.
  - intros [|[|k]] st.
    + vm_compute. discriminate.
    + vm_compute. discriminate.
    + change (S (S k)) with (2 + k)%nat. rewrite Hk.
      destruct H2 as (st' & -> & _). discriminate.
Qed.

Section QueryFails.

Context {W : Type} (search : W → string → W * result (list Result)).

(** In general: when the source raises for the author taken from the queue,
    the loop is left at once, whatever is still queued. *)
Lemma while_queue_query_fails m (st : state (W:=W)) a d rest w e fuel :
  queue st = (a, d) :: rest →
  a ∉ processed_authors st →
  d < m →
  search (world st) a = (w, Raise e) →
  ∃ st', while_queue search (S fuel) m st = Raised e st' ∧ queue st' = rest.
Proof.
  intros Hq Ha Hd Hs. simpl. rewrite Hq. unfold loop_body.
  rewrite decide_False by done.
  destruct (Z.geb_spec d m); [lia|]. rewrite Hs. eauto.
Qed.

(** And [search_arxiv_publications] passes on what the client raises. *)
Lemma search_arxiv_publications_raises
    (unidecode : string → string)
    (client_results : W → string → Z → W * result (list Result))
    w author_name max_results transliterate_name :
  (∀ q, (client_results w q max_results).2 = Raise (SourceError "timeout")) →
  (search_arxiv_publications unidecode client_results w author_name
     max_results transliterate_name).2 = Raise (SourceError "timeout").
Proof. intros H. unfold search_arxiv_publications. apply H. Qed.

End QueryFails.

(** ** load_all_csv_edges *)

Section LoadFacts.

Implicit Types (G : nx.Graph) (dir : folder) (rows : list (list string)).
Implicit Types (row : list string).

Lemma csv_files_cons_csv name f dir :
  endswith name ".csv" = true → csv_files ((name, f) :: dir) = f :: csv_files dir.
Proof. intros H. unfold csv_files. by rewrite filter_cons_True. Qed.

Lemma csv_files_cons_other name f dir :
  endswith name ".csv" = false → csv_files ((name, f) :: dir) = csv_files dir.
Proof.
  intros H. unfold csv_files. rewrite filter_cons_False; [done|].
  simpl. by rewrite H.
Qed.

Lemma csv_files_app d1 d2 : csv_files (d1 ++ d2) = csv_files d1 ++ csv_files d2.
Proof. unfold csv_files. by rewrite filter_app, fmap_app. Qed.

Lemma data_rows_app d1 d2 : data_rows (d1 ++ d2) = data_rows d1 ++ data_rows d2.
Proof. unfold data_rows. by rewrite csv_files_app, fmap_app, join_app. Qed.

(** When every file has its header row, loading is adding the data rows of
    all the files in turn. *)
Lemma load_files_ok dir : ∀ G,
  Forall (λ f, f ≠ []) (csv_files dir) →
  load_files G dir = Ok (foldl load_row G (data_rows dir)).
Proof.
  induction dir as [|[name f] dir IH]; intros G Hf; simpl; [done|].
  destruct (endswith name ".csv") eqn:E.
  - rewrite csv_files_cons_csv in Hf by done.
    apply Forall_cons in Hf as [Hne Hf].
    destruct f as [|h data]; [done|].
    rewrite IH by done. unfold data_rows.
    rewrite csv_files_cons_csv by done. simpl. by rewrite foldl_app.
  - rewrite csv_files_cons_other in Hf by done. rewrite IH by done.
    unfold data_rows. by rewrite csv_files_cons_other.
Qed.

(** When some file has no row at all, loading raises, whatever was read
    before. *)
Lemma load_files_raises dir : ∀ G,
  Exists (λ f, f = []) (csv_files dir) →
  load_files G dir = Raise StopIteration.
Proof.
  induction dir as [|[name f] dir IH]; intros G Hf; simpl.
  - by apply Exists_nil in Hf.
  - destruct (endswith name ".csv") eqn:E.
    + rewrite csv_files_cons_csv in Hf by done.
      destruct f as [|h data]; [done|].
      apply Exists_cons in Hf as [Hf|Hf]; [done|]. by apply IH.
    + rewrite csv_files_cons_other in Hf by done. by apply IH.
Qed.

Lemma load_files_returns dir G G' :
  load_files G dir = Ok G' → Forall (λ f, f ≠ []) (csv_files dir).
Proof.
  intros HG.
  destruct (decide (Exists (λ f, f = []) (csv_files dir))) as [He|He].
  - by rewrite (load_files_raises dir G He) in HG.
  - apply not_Exists_Forall in He; [|intros f; apply _].
    eapply Forall_impl; [exact He|]. simpl. auto.
Qed.

Lemma load_row_pair G u v : load_row G [u; v] = nx.add_edge G u v.
Proof. done. Qed.

Lemma load_row_malformed G row : length row ≠ 2%nat → load_row G row = G.
Proof. intros H. unfold load_row. by rewrite decide_False. Qed.

Lemma two_fields row : length row = 2%nat ↔ ∃ u v, row = [u; v].
Proof.
  split.
  - destruct row as [|u [|v [|? ?]]]; try done. eauto.
  - by intros (u & v & ->).
Qed.

(** The nodes and the neighbours after a run of rows. *)
Lemma dom_load_rows rows : ∀ G n,
  n ∈ dom (foldl load_row G rows)
  ↔ n ∈ dom G ∨ ∃ x, [n; x] ∈ rows ∨ [x; n] ∈ rows.
Proof.
  induction rows as [|row rows IH]; intros G n; simpl.
  - split; [auto|]. intros [?|[x [H|H]]]; [done|by apply elem_of_nil in H..].
  - rewrite IH. setoid_rewrite elem_of_cons.
    destruct (decide (length row = 2%nat)) as [Hl|Hl].
    + apply two_fields in Hl as (u & v & ->). rewrite load_row_pair.
      rewrite dom_add_edge, !elem_of_union, !elem_of_singleton.
      naive_solver.
    + rewrite load_row_malformed by done. split; [naive_solver|].
      intros [Hn|[x [[Hx|Hx]|[Hx|Hx]]]]; [by left| |naive_solver| |naive_solver];
        subst row; done.
Qed.

Lemma adj_load_rows rows : ∀ G n x,
  x ∈ nx.adj (foldl load_row G rows) n
  ↔ x ∈ nx.adj G n ∨ [n; x] ∈ rows ∨ [x; n] ∈ rows.
Proof.
  induction rows as [|row rows IH]; intros G n x; simpl.
  - split; [auto|]. intros [?|[H|H]]; [done|by apply elem_of_nil in H..].
  - rewrite IH. rewrite !elem_of_cons.
    destruct (decide (length row = 2%nat)) as [Hl|Hl].
    + apply two_fields in Hl as (u & v & ->). rewrite load_row_pair.
      rewrite elem_of_adj_add_edge. naive_solver.
    + rewrite load_row_malformed by done. split; [naive_solver|].
      intros [?|[[Hx|?]|[Hx|?]]]; auto; subst row; done.
Qed.

Lemma symmetric_load_rows rows : ∀ G,
  nx.symmetric G → nx.symmetric (foldl load_row G rows).
Proof.
  intros G HG u v. rewrite !adj_load_rows. specialize (HG u v). tauto.
Qed.

End LoadFacts.

(** ** G.edges() *)

Section EdgesFacts.

Implicit Types (G : nx.Graph) (l : nx.view) (seen : gset string).
Implicit Types (u v n x : string) (es : list (string * string)).

Lemma of_view_keys l :
  (prod_map id (list_to_set (C:=gset string)) <$> l).*1 = l.*1.
Proof.
  rewrite <- list_fmap_compose. apply list_fmap_ext. by intros i [n nbrs] _.
Qed.

Lemma views_lookup l G n nbrs :
  nx.views l G → (n, nbrs) ∈ l → G !! n = Some (list_to_set nbrs).
Proof.
  intros (Hnd & _ & <-) Hin. unfold nx.of_view.
  apply elem_of_list_to_map_1.
  - by rewrite of_view_keys.
  - apply list_elem_of_fmap. by exists (n, nbrs).
Qed.

Lemma views_adj l G n nbrs x :
  nx.views l G → (n, nbrs) ∈ l → x ∈ nbrs ↔ x ∈ nx.adj G n.
Proof.
  intros Hv Hin. rewrite (adj_lookup _ _ _ (views_lookup _ _ _ _ Hv Hin)).
  by rewrite elem_of_list_to_set.
Qed.

Lemma views_dom l G n : nx.views l G → n ∈ dom G ↔ n ∈ l.*1.
Proof.
  intros (_ & _ & <-). unfold nx.of_view.
  by rewrite dom_list_to_map_L, of_view_keys, elem_of_list_to_set.
Qed.

(** The walk in the order of the map is a view. *)
Lemma views_items G : nx.views (nx.items G) G.
Proof.
  unfold nx.views, nx.items. split; [|split].
  - rewrite <- list_fmap_compose.
    rewrite (list_fmap_ext _ fst (map_to_list G)) by done.
    apply NoDup_fst_map_to_list.
  - apply Forall_fmap, Forall_forall. intros [n s] _. simpl.
    apply NoDup_elements.
  - unfold nx.of_view. rewrite <- list_fmap_compose.
    rewrite (list_fmap_ext _ id (map_to_list G)).
    + rewrite list_fmap_id. apply list_to_map_to_list.
    + intros i [n s] _. simpl. unfold prod_map. simpl.
      f_equal. apply list_to_set_elements_L.
Qed.

(** An edge that is listed starts at a node of the walk and ends at a name
    not walked before. *)
Lemma elem_of_edges_from l : ∀ seen u v,
  (u, v) ∈ nx.edges_from l seen → u ∈ l.*1 ∧ v ∉ seen.
Proof.
  induction l as [|[n nbrs] l IH]; intros seen u v; simpl.
  - by intros ?%elem_of_nil.
  - intros [H|H]%elem_of_app.
    + apply list_elem_of_fmap in H as (x & [= -> ->] & Hx).
      apply list_elem_of_filter in Hx as [Hx _]. split; [left|done].
    + apply IH in H as [Hu Hv]. split; [by right|set_solver].
Qed.

(** No edge is listed in both orientations. *)
Lemma edges_from_one_orientation l : ∀ seen u v,
  (u, v) ∈ nx.edges_from l seen → (v, u) ∈ nx.edges_from l seen → u = v.
Proof.
  induction l as [|[n nbrs] l IH]; intros seen u v; simpl.
  - by intros ?%elem_of_nil.
  - intros [H1|H1]%elem_of_app [H2|H2]%elem_of_app.
    + apply list_elem_of_fmap in H1 as (x & [= -> ->] & _).
      by apply list_elem_of_fmap in H2 as (y & [= -> ?] & _).
    + apply list_elem_of_fmap in H1 as (x & [= -> ->] & _).
      apply elem_of_edges_from in H2 as [_ Hn]. set_solver.
    + apply list_elem_of_fmap in H2 as (x & [= -> ->] & _).
      apply elem_of_edges_from in H1 as [_ Hn]. set_solver.
    + by eapply IH.
Qed.

(** No edge is listed twice. *)
Lemma NoDup_edges_from l : ∀ seen,
  NoDup l.*1 → Forall (λ e, NoDup e.2) l → NoDup (nx.edges_from l seen).
Proof.
  induction l as [|[n nbrs] l IH]; intros seen Hk Hn; simpl.
  - constructor.
  - apply NoDup_cons in Hk as [Hnl Hk]. apply Forall_cons in Hn as [Hn Hl].
    apply NoDup_app. split; [|split].
    + apply NoDup_fmap_2; [by intros x y [=]|]. by apply NoDup_filter.
    + intros [a b] (x & [= -> ->] & _)%list_elem_of_fmap
        [Ha _]%elem_of_edges_from. done.
    + by apply IH.
Qed.

(** The edges listed from a point of the walk on are the edges of the
    graph between names not walked before. *)
Lemma edges_from_spec G (Hsym : nx.symmetric G) l : ∀ seen u v,
  NoDup l.*1 →
  (∀ n, n ∈ l.*1 → n ∉ seen) →
  (∀ n nbrs x, (n, nbrs) ∈ l → x ∈ nbrs ↔ x ∈ nx.adj G n) →
  (∀ n, n ∈ dom G → n ∈ seen ∨ n ∈ l.*1) →
  ((u, v) ∈ nx.edges_from l seen ∨ (v, u) ∈ nx.edges_from l seen)
  ↔ (v ∈ nx.adj G u ∧ (u ∉ seen) ∧ (v ∉ seen)).
Proof.
  induction l as [|[n nbrs] l IH]; intros seen u v Hk Hdisj Hadj Hdom; simpl.
  - split; [intros [?%elem_of_nil|?%elem_of_nil]; done|].
    intros (Hv & Hu & _). apply adj_nonempty_node, Hdom in Hv as [?|?%elem_of_nil];
      done.
  - apply NoDup_cons in Hk as [Hnl Hk].
    assert (Hn : n ∉ seen) by (apply Hdisj; left).
    assert (Hnb : ∀ x, x ∈ nbrs ↔ x ∈ nx.adj G n) by (intros x; apply Hadj; left).
    assert (Hhead : ∀ a b,
      (a, b) ∈ (λ nbr, (n, nbr)) <$> filter (λ nbr, nbr ∉ seen) nbrs
      ↔ a = n ∧ b ∈ nx.adj G n ∧ b ∉ seen).
    { intros a b. rewrite list_elem_of_fmap. setoid_rewrite list_elem_of_filter.
      setoid_rewrite Hnb. naive_solver. }
    rewrite !elem_of_app, !Hhead.
    specialize (IH (seen ∪ {[n]}) u v Hk).
    assert (IH' : ((u, v) ∈ nx.edges_from l (seen ∪ {[n]})
                   ∨ (v, u) ∈ nx.edges_from l (seen ∪ {[n]}))
                  ↔ v ∈ nx.adj G u ∧ (u ∉ seen ∪ {[n]}) ∧ (v ∉ seen ∪ {[n]})).
    { apply IH.
      - intros m Hm. specialize (Hdisj m). set_solver.
      - intros m ms x Hm. apply Hadj. by right.
      - intros m Hm. apply Hdom in Hm as [?|[->|?]%elem_of_cons]; set_solver. }
    pose proof (Hsym u v). pose proof (Hsym v u).
    destruct (decide (u = n)) as [->|Hun], (decide (v = n)) as [->|Hvn];
      set_solver.
Qed.

Lemma edges_in_spec G l u v :
  nx.symmetric G → nx.views l G →
  ((u, v) ∈ nx.edges_in l ∨ (v, u) ∈ nx.edges_in l) ↔ v ∈ nx.adj G u.
Proof.
  intros Hsym Hv. unfold nx.edges_in.
  rewrite (edges_from_spec G Hsym l ∅ u v).
  - set_solver.
  - apply Hv.
  - set_solver.
  - intros n nbrs x Hin. by apply (views_adj l G).
  - intros n Hn. right. by apply (views_dom l G).
Qed.

Lemma length_filter_le_1 {A} (P : A → Prop) `{∀ a, Decision (P a)}
    (xs : list A) :
  NoDup xs → (∀ a b, a ∈ xs → b ∈ xs → P a → P b → a = b) →
  (length (filter P xs) ≤ 1)%nat.
Proof.
  intros Hnd Huniq.
  assert (Hf : NoDup (filter P xs)) by by apply NoDup_filter.
  destruct (filter P xs) as [|a [|b ys]] eqn:E; simpl; [lia|lia|].
  exfalso.
  assert (Ha : a ∈ filter P xs) by (rewrite E; left).
  assert (Hb : b ∈ filter P xs) by (rewrite E; right; left).
  apply list_elem_of_filter in Ha as [Pa Ha], Hb as [Pb Hb].
  assert (a = b) by by apply Huniq.
  subst b. apply NoDup_cons in Hf as [Hf _]. apply Hf. left.
Qed.

(** Under every walk, an edge of the graph is listed exactly once. *)
Lemma joining_edges_in G l u v :
  nx.symmetric G → nx.views l G → v ∈ nx.adj G u →
  nx.joining u v (nx.edges_in l) = 1%nat.
Proof.
  intros Hsym Hv Hadj. unfold nx.joining.
  assert (Hle : (length (filter (λ e, e = (u, v) ∨ e = (v, u))
                           (nx.edges_in l)) ≤ 1)%nat).
  { apply length_filter_le_1.
    - apply NoDup_edges_from; apply Hv.
    - intros e1 e2 H1 H2 [->| ->] [->| ->]; try done.
      + f_equal; by apply (edges_from_one_orientation l ∅).
      + f_equal; by apply (edges_from_one_orientation l ∅). }
  assert (Hge : filter (λ e, e = (u, v) ∨ e = (v, u)) (nx.edges_in l) ≠ []).
  { apply (edges_in_spec G l u v Hsym Hv) in Hadj.
    intros E.
    destruct Hadj as [H|H];
      (eapply elem_of_nil; rewrite <- E; apply list_elem_of_filter;
       split; [|exact H]; auto). }
  destruct (filter _ (nx.edges_in l)) as [|? [|? ?]]; simpl in *; [done|done|lia].
Qed.

End EdgesFacts.

(** ** save_edges_to_csv and load_all_csv_edges *)

Section StoreFacts.

Implicit Types (G : nx.Graph) (dir : folder) (rows : list (list string)).
Implicit Types (row : list string) (u v n x a : string).

Lemma substring_append_skip s t k m :
  String.substring (String.length s + k) m (s +:+ t) = String.substring k m t.
Proof. induction s as [|c s IH]; simpl; [done|exact IH]. Qed.

Lemma length_append s t :
  String.length (s +:+ t) = (String.length s + String.length t)%nat.
Proof. induction s as [|c s IH]; simpl; [done|by rewrite IH]. Qed.

(** A string ends as its last part ends. *)
Lemma endswith_append s t suffix :
  endswith t suffix = true → endswith (s +:+ t) suffix = true.
Proof.
  unfold endswith. rewrite length_append.
  destruct (Nat.leb_spec (String.length suffix) (String.length t)) as [Hle|];
    [|done].
  intros Ht. rewrite (proj2 (Nat.leb_le _ _)) by lia.
  replace (String.length s + String.length t - String.length suffix)%nat
    with (String.length s + (String.length t - String.length suffix))%nat by lia.
  by rewrite substring_append_skip.
Qed.

(** The file [save_edges_to_csv] writes is one [load_all_csv_edges] reads. *)
Lemma save_filename_csv (l : nx.view) author max_depth :
  endswith (save_edges_to_csv l author max_depth).1 ".csv" = true.
Proof. unfold save_edges_to_csv. simpl. by repeat apply endswith_append. Qed.

Lemma load_row_filter rows : ∀ G,
  foldl load_row G (filter (λ row, length row = 2%nat) rows)
  = foldl load_row G rows.
Proof.
  induction rows as [|row rows IH]; intros G; simpl; [done|].
  destruct (decide (length row = 2%nat)) as [Hl|Hl].
  - rewrite filter_cons_True by done. simpl. apply IH.
  - rewrite filter_cons_False by done. rewrite load_row_malformed by done.
    apply IH.
Qed.

Lemma adj_graph_union G1 G2 n :
  nx.adj (graph_union G1 G2) n = nx.adj G1 n ∪ nx.adj G2 n.
Proof.
  unfold nx.adj, graph_union. rewrite lookup_union_with.
  destruct (G1 !! n), (G2 !! n); simpl; set_solver.
Qed.

Lemma dom_graph_union G1 G2 : dom (graph_union G1 G2) = dom G1 ∪ dom G2.
Proof.
  apply set_eq. intros n. rewrite elem_of_union, !elem_of_dom.
  unfold graph_union. rewrite lookup_union_with.
  destruct (G1 !! n), (G2 !! n); simpl; split;
    try (intros [? [=]]); try (intros [[? [=]]|[? [=]]]); eauto.
Qed.

(** Loading more rows from [G] on is the union of [G] with the graph of
    those rows alone. *)
Lemma load_rows_union rows G :
  foldl load_row G rows = graph_union G (foldl load_row nx.empty rows).
Proof.
  apply graph_eq.
  - apply set_eq. intros n.
    rewrite dom_graph_union, elem_of_union, !dom_load_rows.
    unfold nx.empty. rewrite dom_empty_L. set_solver.
  - intros n. apply set_eq. intros x.
    rewrite adj_graph_union, elem_of_union, !adj_load_rows.
    unfold nx.adj at 3, nx.empty. rewrite lookup_empty. set_solver.
Qed.

Lemma load_all_rows dir G :
  load_all_csv_edges dir = Ok G →
  G = foldl load_row nx.empty (data_rows dir).
Proof.
  intros H. unfold load_all_csv_edges in H.
  pose proof (load_files_returns _ _ _ H) as Hf.
  rewrite load_files_ok in H by done. by injection H.
Qed.

(** Loading two folders as one gives the union of their graphs. *)
Lemma load_all_app d1 d2 G1 G2 :
  load_all_csv_edges d1 = Ok G1 → load_all_csv_edges d2 = Ok G2 →
  load_all_csv_edges (d1 ++ d2) = Ok (graph_union G1 G2).
Proof.
  intros H1 H2. unfold load_all_csv_edges.
  pose proof (load_files_returns _ _ _ H1) as Hf1.
  pose proof (load_files_returns _ _ _ H2) as Hf2.
  apply load_all_rows in H1, H2.
  rewrite load_files_ok by (rewrite csv_files_app; by apply Forall_app).
  rewrite data_rows_app, foldl_app, load_rows_union. by rewrite <- H1, <- H2.
Qed.

Lemma graph_union_comm G1 G2 : graph_union G1 G2 = graph_union G2 G1.
Proof.
  apply graph_eq.
  - rewrite !dom_graph_union. set_solver.
  - intros n. rewrite !adj_graph_union. set_solver.
Qed.

(** The order in which [os.listdir] names the files does not matter. *)
Lemma load_all_app_comm d1 d2 G :
  load_all_csv_edges (d1 ++ d2) = Ok G → load_all_csv_edges (d2 ++ d1) = Ok G.
Proof.
  intros H. pose proof (load_files_returns _ _ _ H) as Hf.
  rewrite csv_files_app in Hf. apply Forall_app in Hf as [Hf1 Hf2].
  pose proof (load_files_ok d1 nx.empty Hf1) as H1.
  pose proof (load_files_ok d2 nx.empty Hf2) as H2.
  rewrite (load_all_app _ _ _ _ H1 H2) in H. injection H as <-.
  rewrite graph_union_comm. by apply load_all_app.
Qed.

Lemma adj_drop_isolated G n : nx.adj (nx.drop_isolated G) n = nx.adj G n.
Proof.
  unfold nx.adj, nx.drop_isolated.
  destruct (filter _ G !! n) as [s|] eqn:E.
  - apply map_lookup_filter_Some in E as [-> _]. done.
  - apply map_lookup_filter_None in E as [->|E]; [done|].
    destruct (G !! n) as [s|] eqn:EG; [|done]. simpl.
    destruct (decide (s = ∅)) as [->|Hs]; [done|].
    exfalso. by apply (E s).
Qed.

Lemma elem_of_endpoints G n : n ∈ nx.endpoints G ↔ ∃ x, x ∈ nx.adj G n.
Proof.
  unfold nx.endpoints, nx.drop_isolated. rewrite elem_of_dom. split.
  - intros [s [Hs Hne]%map_lookup_filter_Some]. simpl in Hne.
    apply set_choose_L in Hne as [x Hx]. exists x.
    by rewrite (adj_lookup _ _ _ Hs).
  - intros [x Hx]. pose proof (adj_nonempty_node _ _ _ Hx) as Hn.
    exists (nx.adj G n). apply map_lookup_filter_Some. split.
    + by apply lookup_node.
    + simpl. set_solver.
Qed.

End StoreFacts.

Section StoreClaims.

Implicit Types (dir : folder) (rows : list (list string)).
Implicit Types (row : list string) (u v n x a : string).

(** C10. When the folder holds a [.csv] file without any row, skipping its
    header raises [StopIteration] and [load_all_csv_edges] returns no graph,
    whatever the other files of the folder hold and whatever was read from
    them before. *)
Theorem load_raises_on_file_without_rows dir name :
  (name, []) ∈ dir → endswith name ".csv" = true →
  load_all_csv_edges dir = Raise StopIteration
  ∧ ∀ G, load_files G dir = Raise StopIteration.
Proof.
  intros Hin Hname.
  assert (He : Exists (λ f, f = []) (csv_files dir)).
  { unfold csv_files. apply Exists_fmap, Exists_exists.
    exists (name, []). split; [|done]. by apply list_elem_of_filter. }
  split; [|intros G]; by apply load_files_raises.
Qed.

Lemma load_raises_on_file_without_rows_witness :
  load_all_csv_edges folder_empty_file = Raise StopIteration
  ∧ ∀ G, load_files G folder_empty_file = Raise StopIteration.
Proof.
  apply (load_raises_on_file_without_rows folder_empty_file "empty.csv").
  - right. left.
  - reflexivity.
Defined.

(** C7. When every [.csv] file of the folder has its header row,
    [load_all_csv_edges] raises nothing; the graph is the one the rows of
    exactly two fields alone give; every data row of two fields is an edge
    of it, and it has no other edge and no other node. *)
Theorem load_skips_malformed_rows dir :
  Forall (λ f, f ≠ []) (csv_files dir) →
  ∃ G,
    load_all_csv_edges dir = Ok G
    ∧ G = foldl load_row nx.empty
            (filter (λ row, length row = 2%nat) (data_rows dir))
    ∧ (∀ u v, [u; v] ∈ data_rows dir →
              nx.has_edge G u v = true ∧ nx.has_edge G v u = true)
    ∧ (∀ u v, nx.has_edge G u v = true →
              [u; v] ∈ data_rows dir ∨ [v; u] ∈ data_rows dir)
    ∧ (∀ n, n ∈ nx.nodes G ↔
            ∃ x, [n; x] ∈ data_rows dir ∨ [x; n] ∈ data_rows dir).
Proof.
  intros Hf. exists (foldl load_row nx.empty (data_rows dir)).
  split; [by apply load_files_ok|].
  split; [by rewrite load_row_filter|].
  unfold nx.has_edge, nx.nodes.
  setoid_rewrite bool_decide_eq_true. setoid_rewrite adj_load_rows.
  setoid_rewrite dom_load_rows.
  unfold nx.adj, nx.empty. setoid_rewrite lookup_empty.
  rewrite dom_empty_L. set_solver.
Qed.

Lemma load_skips_malformed_rows_witness :
  ∃ G,
    load_all_csv_edges folder_malformed = Ok G
    ∧ G = foldl load_row nx.empty
            (filter (λ row, length row = 2%nat) (data_rows folder_malformed))
    ∧ (∀ u v, [u; v] ∈ data_rows folder_malformed →
              nx.has_edge G u v = true ∧ nx.has_edge G v u = true)
    ∧ (∀ u v, nx.has_edge G u v = true →
              [u; v] ∈ data_rows folder_malformed
              ∨ [v; u] ∈ data_rows folder_malformed)
    ∧ (∀ n, n ∈ nx.nodes G ↔
            ∃ x, [n; x] ∈ data_rows folder_malformed
                 ∨ [x; n] ∈ data_rows folder_malformed).
Proof.
  apply (load_skips_malformed_rows folder_malformed).
  vm_compute. repeat constructor; discriminate.
Defined.

(** C2, as stated, fails: a row that names [A] twice is loaded as the
    self-edge [A]-[A]. *)
Lemma load_creates_self_edge :
  ∃ G, load_all_csv_edges folder_self = Ok G ∧ ¬ nx.no_self_loops G.
Proof.
  eexists. split; [reflexivity|].
  intros H. apply (H "A"). vm_compute. reflexivity.
Qed.

(** C2, amended. The graph of a build has no self-edge at any moment, for
    every publication source, seed and depth bound, also when a
    publication lists the author among their own co-authors, and the build
    ends; and the graph [load_all_csv_edges] returns has the self-edge
    [a]-[a] exactly when a data row of a loaded file is [a, a]. *)
Theorem self_edges_of_build_and_load
    {W : Type} (search : W → string → W * result (list Result))
    (w : W) (start_author : string) (max_depth : Z) (fuel : nat)
    dir (loaded : nx.Graph) a :
  nx.no_self_loops
    (G (final (build_collaboration_network search fuel w start_author
                 max_depth)))
  ∧ (∃ enough,
       halted (build_collaboration_network search enough w start_author
                 max_depth))
  ∧ (load_all_csv_edges dir = Ok loaded →
     (a ∈ nx.adj loaded a ↔ [a; a] ∈ data_rows dir)).
Proof.
  split; [apply build_no_self_loops|]. split; [apply build_halts|].
  intros ->%load_all_rows. rewrite adj_load_rows.
  unfold nx.adj, nx.empty. rewrite lookup_empty. set_solver.
Qed.

Lemma self_edges_of_build_and_load_witness :
  nx.no_self_loops
    (G (final (build_collaboration_network stub_B_fails 10 tt "A" 2)))
  ∧ ("A" ∈ nx.adj G_self "A" ↔ ["A"; "A"] ∈ data_rows folder_self).
Proof.
  destruct (self_edges_of_build_and_load stub_B_fails tt "A" 2 10
              folder_self G_self "A") as (H1 & _ & H2).
  split; [exact H1|]. apply H2. reflexivity.
Defined.

(** C8. When two folders (two edge files, say) both hold the edge
    [A]-[B], loading them as one folder returns the union of their graphs,
    and under every walk of that graph [G.edges()] lists exactly one edge
    between [A] and [B]. *)
Theorem load_merges_duplicate_edges d1 d2 (G1 G2 : nx.Graph) A B :
  load_all_csv_edges d1 = Ok G1 →
  load_all_csv_edges d2 = Ok G2 →
  nx.has_edge G1 A B = true →
  nx.has_edge G2 A B = true →
  ∃ G12,
    load_all_csv_edges (d1 ++ d2) = Ok G12
    ∧ G12 = graph_union G1 G2
    ∧ (∀ l, nx.views l G12 → nx.joining A B (nx.edges_in l) = 1%nat)
    ∧ nx.joining A B (nx.edges G12) = 1%nat.
Proof.
  intros H1 H2 E1 E2. exists (graph_union G1 G2).
  pose proof (load_all_app _ _ _ _ H1 H2) as H12.
  assert (Hsym : nx.symmetric (graph_union G1 G2)).
  { apply load_all_rows in H12. rewrite H12.
    apply symmetric_load_rows, symmetric_empty. }
  assert (Hadj : B ∈ nx.adj (graph_union G1 G2) A).
  { rewrite adj_graph_union. unfold nx.has_edge in E1.
    apply bool_decide_eq_true in E1. set_solver. }
  split; [done|]. split; [done|]. split.
  - intros l Hl. by apply (joining_edges_in (graph_union G1 G2)).
  - apply (joining_edges_in (graph_union G1 G2)); [done| |done].
    apply views_items.
Qed.

Lemma load_merges_duplicate_edges_witness :
  ∃ G12,
    load_all_csv_edges (folder_one ++ folder_two) = Ok G12
    ∧ G12 = graph_union (nx.add_edge nx.empty "A" "B")
              (nx.add_edge (nx.add_edge nx.empty "A" "B") "B" "C")
    ∧ (∀ l, nx.views l G12 → nx.joining "A" "B" (nx.edges_in l) = 1%nat)
    ∧ nx.joining "A" "B" (nx.edges G12) = 1%nat.
Proof.
  apply (load_merges_duplicate_edges folder_one folder_two
           (nx.add_edge nx.empty "A" "B")
           (nx.add_edge (nx.add_edge nx.empty "A" "B") "B" "C") "A" "B").
  - reflexivity.
  - reflexivity.
  - vm_compute. reflexivity.
  - vm_compute. reflexivity.
Defined.

(** C9. For every undirected graph [G], under every walk of it, the folder
    that holds just the file [save_edges_to_csv] writes loads as [G] without
    its isolated nodes: the same edges, the endpoints of the edges as nodes,
    and no node of [G] that has no neighbour. *)
Theorem save_then_load_drops_isolated_nodes
    (G0 : nx.Graph) (l : nx.view) author max_depth name :
  nx.symmetric G0 → nx.views l G0 → endswith name ".csv" = true →
  ∃ G1,
    load_all_csv_edges [(name, (save_edges_to_csv l author max_depth).2)]
    = Ok G1
    ∧ G1 = nx.drop_isolated G0
    ∧ (∀ u v, nx.has_edge G1 u v = nx.has_edge G0 u v)
    ∧ nx.nodes G1 = nx.endpoints G0
    ∧ (∀ n, n ∈ nx.nodes G0 → nx.adj G0 n = ∅ → n ∉ nx.nodes G1).
Proof.
  intros Hsym Hl Hname.
  set (rows := (λ e : string * string, [e.1; e.2]) <$> nx.edges_in l).
  assert (Hrows : ∀ u v, [u; v] ∈ rows ↔ (u, v) ∈ nx.edges_in l).
  { intros u v. subst rows. rewrite list_elem_of_fmap. split.
    - by intros ([a b] & [= -> ->] & H).
    - intros H. by exists (u, v). }
  assert (Hadj : ∀ n x,
             x ∈ nx.adj (foldl load_row nx.empty rows) n ↔ x ∈ nx.adj G0 n).
  { intros n x. rewrite adj_load_rows, !Hrows.
    rewrite (edges_in_spec G0 l n x Hsym Hl).
    unfold nx.adj at 1, nx.empty. rewrite lookup_empty. set_solver. }
  assert (Hdom : ∀ n,
             n ∈ dom (foldl load_row nx.empty rows) ↔ n ∈ nx.endpoints G0).
  { intros n. rewrite dom_load_rows, elem_of_endpoints.
    unfold nx.empty. rewrite dom_empty_L. setoid_rewrite Hrows.
    setoid_rewrite (edges_in_spec G0 l n _ Hsym Hl). set_solver. }
  assert (HG : foldl load_row nx.empty rows = nx.drop_isolated G0).
  { apply graph_eq.
    - apply set_eq. intros n. by rewrite Hdom.
    - intros n. apply set_eq. intros x. by rewrite Hadj, adj_drop_isolated. }
  exists (nx.drop_isolated G0). split.
  { unfold load_all_csv_edges. simpl. rewrite Hname. fold rows. by rewrite HG. }
  split; [done|]. split; [|split].
  - intros u v. unfold nx.has_edge. by rewrite adj_drop_isolated.
  - done.
  - intros n _ Hn. unfold nx.nodes. fold (nx.endpoints G0).
    rewrite elem_of_endpoints. intros [x Hx]. rewrite Hn in Hx. set_solver.
Qed.

Lemma save_then_load_drops_isolated_nodes_witness :
  ∃ G1,
    load_all_csv_edges
      [("collaboration_network_A_depth_1.csv",
        (save_edges_to_csv view_AB_C "A" 1).2)] = Ok G1
    ∧ G1 = nx.drop_isolated G_AB_C
    ∧ (∀ u v, nx.has_edge G1 u v = nx.has_edge G_AB_C u v)
    ∧ nx.nodes G1 = nx.endpoints G_AB_C
    ∧ (∀ n, n ∈ nx.nodes G_AB_C → nx.adj G_AB_C n = ∅ → n ∉ nx.nodes G1).
Proof.
  apply (save_then_load_drops_isolated_nodes G_AB_C view_AB_C "A" 1
           "collaboration_network_A_depth_1.csv").
  - apply symmetric_add_node, symmetric_add_edge, symmetric_empty.
  - apply (bool_decide_unpack (nx.views view_AB_C G_AB_C)). vm_compute.
    exact I.
  - reflexivity.
Defined.

End StoreClaims.

(** ** find_connection *)

Section PathFacts.

Implicit Types (G : nx.Graph) (p q : list string) (s t u v : string).

Lemma walk_snoc G p u v :
  walk G p → last p = Some u → v ∈ nx.adj G u → walk G (p ++ [v]).
Proof.
  induction p as [|a [|b p] IH]; intros Hw Hl Hv.
  - done.
  - simpl in *. by injection Hl as ->.
  - destruct Hw as [Hb Hw]. split; [done|].
    apply IH; [done| |done]. by rewrite last_cons_cons in Hl.
Qed.

(** A frontier entry read backwards is a walk from the source to its first
    name. *)
Lemma trail_walk G s q :
  trail G s q →
  walk G (reverse q) ∧ head (reverse q) = Some s ∧ last (reverse q) = head q.
Proof.
  induction q as [|v [|u q] IH]; [done| |].
  - simpl. intros ->. done.
  - intros [Hv Hq]. destruct (IH Hq) as (Hw & Hh & Hl).
    rewrite (reverse_cons _ v). split; [|split].
    + by apply (walk_snoc G _ u v).
    + by rewrite head_app, Hh.
    + by rewrite last_snoc.
Qed.

Lemma walk_connected G p : ∀ s t,
  walk G p → head p = Some s → last p = Some t → connected G s t.
Proof.
  induction p as [|a [|b p] IH]; intros s t Hw Hh Hl.
  - done.
  - simpl in *. injection Hh as ->. injection Hl as ->. apply rtc_refl.
  - destruct Hw as [Hb Hw]. injection Hh as ->.
    eapply rtc_l; [exact Hb|]. apply IH; [done|done|].
    by rewrite last_cons_cons in Hl.
Qed.

(** The search only returns walks from the source to the target. *)
Lemma bfs_sound G s t fuel : ∀ seen frontier path,
  Forall (trail G s) frontier →
  bfs fuel G t seen frontier = Some path →
  walk G path ∧ head path = Some s ∧ last path = Some t.
Proof.
  induction fuel as [|fuel IH]; intros seen frontier path Hf; simpl; [done|].
  destruct frontier as [|[|v p] frontier]; [done| |].
  - apply Forall_cons in Hf as [[] _].
  - apply Forall_cons in Hf as [Hv Hf]. case_decide as Hvt.
    + intros [= <-]. destruct (trail_walk G s (v :: p) Hv) as (Hw & Hh & Hl).
      subst t. done.
    + apply IH. apply Forall_app. split; [done|].
      apply Forall_fmap, Forall_forall. intros n Hn. simpl.
      apply list_elem_of_filter in Hn as [_ Hn]. apply elem_of_elements in Hn.
      done.
Qed.

Lemma shortest_path_sound G s t path :
  shortest_path G s t = Ok path →
  walk G path ∧ head path = Some s ∧ last path = Some t.
Proof.
  unfold shortest_path. destruct (_ && _); [|done].
  destruct (bfs _ _ _ _ _) as [p|] eqn:E; [|done].
  intros [= <-]. eapply bfs_sound; [|exact E]. by repeat constructor.
Qed.

(** No walk leaves a closed set of names. *)
Lemma closed_separates G (S : gset string) s t :
  closed G S → s ∈ S → t ∉ S → ¬ connected G s t.
Proof.
  intros Hc Hs Ht Hst. apply Ht. clear Ht.
  induction Hst as [|x y z Hxy _ IH]; [done|].
  apply IH. by apply (Hc x).
Qed.

Lemma symmetric_adj_node G u v : nx.symmetric G → v ∈ nx.adj G u → v ∈ dom G.
Proof. intros Hsym Hv. apply Hsym in Hv. by eapply adj_nonempty_node. Qed.

Lemma size_union_new (seen : gset string) (new : list string) :
  NoDup new → (∀ n, n ∈ new → n ∉ seen) →
  size (seen ∪ list_to_set new) = (size seen + length new)%nat.
Proof.
  intros Hnd Hnew. rewrite size_union.
  - by rewrite size_list_to_set.
  - intros n Hn Hn'. apply elem_of_list_to_set in Hn'. by apply (Hnew n).
Qed.

Lemma heads_app (f1 f2 : list (list string)) :
  heads (f1 ++ f2) = heads f1 ++ heads f2.
Proof. apply omap_app. Qed.

Lemma heads_new (new : list string) v p :
  heads ((λ n, n :: v :: p) <$> new) = new.
Proof.
  unfold heads. induction new as [|n new IH]; [done|].
  rewrite fmap_cons. simpl. by f_equal.
Qed.

Lemma expanded_mono G t (seen seen' : gset string) u :
  seen ⊆ seen' → expanded G t seen u → expanded G t seen' u.
Proof. intros Hsub [Hu Hadj]. split; [done|set_solver]. Qed.

(** Expanding the first entry of the frontier keeps the seen names
    settled. *)
Lemma settled_step G t seen v p rest :
  v ≠ t →
  settled G t seen ((v :: p) :: rest) →
  settled G t
    (seen ∪ list_to_set (filter (λ n, n ∉ seen) (elements (nx.adj G v))))
    (rest ++ ((λ n, n :: v :: p)
                <$> filter (λ n, n ∉ seen) (elements (nx.adj G v)))).
Proof.
  intros Hvt Hinv.
  set (new := filter (λ n, n ∉ seen) (elements (nx.adj G v))).
  assert (Hnew : ∀ n, n ∈ new ↔ n ∈ nx.adj G v ∧ n ∉ seen).
  { intros n. subst new. rewrite list_elem_of_filter, elem_of_elements.
    tauto. }
  intros u [Hu|Hu%elem_of_list_to_set]%elem_of_union;
    rewrite heads_app, heads_new.
  - destruct (Hinv u Hu) as [[->|Hh]%elem_of_cons|Hex].
    + right. split; [done|]. intros x Hx.
      destruct (decide (x ∈ seen)); [set_solver|].
      apply elem_of_union. right. apply elem_of_list_to_set. by apply Hnew.
    + left. apply elem_of_app. by left.
    + right. eapply expanded_mono; [|exact Hex]. set_solver.
  - left. apply elem_of_app. by right.
Qed.

(** With fuel for every name that can still be seen, the search finds the
    target whenever a walk leads to it. *)
Lemma bfs_complete G s t (Hsym : nx.symmetric G) (Hst : connected G s t) fuel :
  ∀ seen frontier,
    bfs_inv G s t seen frontier →
    (length frontier + size (dom G) < fuel + size seen)%nat →
    ∃ path, bfs fuel G t seen frontier = Some path.
Proof.
  induction fuel as [|fuel IH]; intros seen frontier (Hs & Hsub & Hinv) Hm.
  { apply subseteq_size in Hsub. lia. }
  simpl. destruct frontier as [|[|v p] frontier].
  - exfalso.
    destruct (decide (t ∈ seen)) as [Ht|Ht].
    + destruct (Hinv t Ht) as [?%elem_of_nil|[? _]]; done.
    + apply (closed_separates G seen s t); [|done..].
      intros u Hu. by destruct (Hinv u Hu) as [?%elem_of_nil|[_ ?]].
  - apply IH; [|simpl in Hm; lia]. done.
  - case_decide as Hvt; [eauto|].
    apply IH.
    + split; [set_solver|]. split; [|by apply settled_step].
      intros n [Hn|Hn%elem_of_list_to_set]%elem_of_union; [by apply Hsub|].
      apply list_elem_of_filter in Hn as [_ Hn%elem_of_elements].
      by eapply symmetric_adj_node.
    + rewrite length_app, length_fmap, size_union_new.
      * simpl in Hm. lia.
      * apply NoDup_filter, NoDup_elements.
      * intros n Hn. by apply list_elem_of_filter in Hn as [? _].
Qed.

(** The path the search returns has no more edges than any walk from the
    source to the target. *)
Lemma bfs_shortest G s t fuel : ∀ L seen F1 F2 path,
  bfs_levels G s t L seen F1 F2 →
  bfs fuel G t seen (F1 ++ F2) = Some path →
  ∀ k, nsteps (neighbour G) k s t → (length path ≤ S k)%nat.
Proof.
  induction fuel as [|fuel IH];
    intros L seen F1 F2 path (H1 & H2 & H12 & Hset & Hlt & Heq); [done|].
  destruct F1 as [|q F1].
  { rewrite (H12 eq_refl). done. }
  apply Forall_cons in H1 as [Hq H1].
  destruct q as [|v p]; [done|]. simpl.
  case_decide as Hvt.
  { intros [= <-] k Hk. rewrite length_reverse, Hq.
    destruct (decide (k < L)%nat) as [Hlk|]; [|lia].
    by destruct (Hlt t k Hk Hlk). }
  set (new := filter (λ n, n ∉ seen) (elements (nx.adj G v))).
  set (seen' := seen ∪ list_to_set new).
  assert (Hsub : seen ⊆ seen') by set_solver.
  assert (Hset' : settled G t seen'
                    ((F1 ++ F2) ++ ((λ n, n :: v :: p) <$> new))).
  { by apply settled_step. }
  assert (Hnews : Forall (λ q, length q = S (S L))
                    ((λ n, n :: v :: p) <$> new)).
  { apply Forall_fmap, Forall_forall. intros n _. simpl.
    simpl in Hq. lia. }
  assert (Hv : expanded G t seen' v).
  { split; [done|]. intros x Hx.
    destruct (decide (x ∈ seen)); [set_solver|].
    apply elem_of_union. right. apply elem_of_list_to_set.
    subst new. apply list_elem_of_filter. split; [done|].
    by apply elem_of_elements. }
  destruct F1 as [|q' F1].
  - (* the level is exhausted: the entries one level deeper come first *)
    intros Hb. apply (IH (S L) seen' (F2 ++ ((λ n, n :: v :: p) <$> new)) []).
    + assert (Hlt' : ∀ x k, nsteps (neighbour G) k s x → (k < S L)%nat →
                             expanded G t seen' x).
      { intros x k Hk HkL. destruct (decide (k < L)%nat) as [Hlk|Hlk].
        - eapply expanded_mono; [exact Hsub|]. by eapply Hlt.
        - assert (k = L) by lia. subst k.
          destruct (Heq x Hk) as [_ [Hx|Hx]].
          + unfold heads in Hx. simpl in Hx.
            apply list_elem_of_singleton in Hx. by subst x.
          + by eapply expanded_mono. }
      split; [by apply Forall_app|]. split; [constructor|].
      split; [done|]. split; [by rewrite app_nil_r|]. split; [done|].
      intros x Hx. apply nsteps_inv_r in Hx as (y & Hy & Hyx).
      assert (Hxs : x ∈ seen').
      { destruct (Hlt' y L Hy) as [_ Hadj]; [lia|]. by apply Hadj. }
      split; [done|]. by apply Hset'.
    + by rewrite app_nil_r.
  - intros Hb.
    apply (IH L seen' (q' :: F1) (F2 ++ ((λ n, n :: v :: p) <$> new))).
    + split; [done|]. split; [by apply Forall_app|]. split; [done|].
      split; [by rewrite app_assoc|]. split.
      * intros x k Hk Hlk. eapply expanded_mono; [exact Hsub|].
        by eapply Hlt.
      * intros x Hx. destruct (Heq x Hx) as [Hxs [Hh|Hex]].
        -- split; [set_solver|].
           apply elem_of_cons in Hh as [->|Hh]; [by right|by left].
        -- split; [set_solver|]. right. by eapply expanded_mono.
    + by rewrite app_assoc.
Qed.

Lemma shortest_path_shortest G s t path :
  shortest_path G s t = Ok path →
  ∀ k, nsteps (neighbour G) k s t → (length path ≤ S k)%nat.
Proof.
  unfold shortest_path. destruct (_ && _); [|done].
  destruct (bfs _ _ _ _ _) as [p|] eqn:E; [|done].
  intros [= <-].
  apply (bfs_shortest G s t (S (size G)) 0 {[s]} [[s]] [] p); [|done].
  split; [by repeat constructor|]. split; [constructor|]. split; [done|].
  split; [|split].
  - intros u ->%elem_of_singleton. left. unfold heads. simpl. left.
  - intros x k _ Hk. lia.
  - intros x Hx. inversion Hx; subst. split; [set_solver|].
    left. unfold heads. simpl. left.
Qed.

(** In an undirected graph a path is found between any two nodes that a
    walk joins. *)
Lemma shortest_path_complete G s t :
  nx.symmetric G → nx.has_node G s = true → nx.has_node G t = true →
  connected G s t → ∃ path, shortest_path G s t = Ok path.
Proof.
  intros Hsym Hs Ht Hst. unfold shortest_path. rewrite Hs, Ht.
  change (true && true) with true. cbv iota.
  destruct (bfs_complete G s t Hsym Hst (S (size G)) {[s]} [[s]])
    as [path ->]; [| |eauto].
  - apply has_node_dom in Hs. split; [set_solver|]. split; [set_solver|].
    intros u ->%elem_of_singleton. left. unfold heads. simpl. left.
  - rewrite size_dom, size_singleton. simpl. lia.
Qed.

Lemma find_connection_disconnected G X Y :
  nx.has_node G X = true → nx.has_node G Y = true → ¬ connected G X Y →
  find_connection G X Y = Ok NoConnection.
Proof.
  intros HX HY Hno. unfold find_connection. rewrite HX, HY. simpl.
  destruct (shortest_path G X Y) as [path|e] eqn:E.
  - exfalso. apply Hno.
    destruct (shortest_path_sound _ _ _ _ E) as (Hw & Hh & Hl).
    by eapply walk_connected.
  - unfold shortest_path in E. rewrite HX, HY in E.
    change (true && true) with true in E. cbv iota in E.
    destruct (bfs _ _ _ _ _); [done|]. by injection E as <-.
Qed.

(** C6. For every graph and names [X], [Y]: when [X] is no node, the
    answer is that [X] is not found, and nothing is raised; when both are
    nodes and no walk joins them, the answer is that there is no
    connection; and from a node [X] to itself the answer is the path [X]
    alone, with 0 degrees of separation. *)
Theorem find_connection_outcomes G X Y :
  (nx.has_node G X = false → find_connection G X Y = Ok (NotFound X))
  ∧ (nx.has_node G X = true → nx.has_node G Y = true →
     ¬ connected G X Y → find_connection G X Y = Ok NoConnection)
  ∧ (nx.has_node G X = true →
     find_connection G X X = Ok (Connection [X] 0)).
Proof.
  split; [|split].
  - intros HX. unfold find_connection. by rewrite HX.
  - apply find_connection_disconnected.
  - intros HX. unfold find_connection, shortest_path. rewrite HX. simpl.
    by rewrite decide_True.
Qed.

Lemma find_connection_outcomes_witness :
  find_connection G_chain "Q" "A" = Ok (NotFound "Q")
  ∧ find_connection G_chain "A" "Y" = Ok NoConnection
  ∧ find_connection G_chain "A" "A" = Ok (Connection ["A"] 0).
Proof.
  split; [|split].
  - apply (find_connection_outcomes G_chain "Q" "A"). reflexivity.
  - apply (find_connection_outcomes G_chain "A" "Y"); [reflexivity..|].
    apply (closed_separates G_chain (list_to_set ["A"; "B"; "C"; "D"])).
    + apply (bool_decide_unpack _). vm_compute. exact I.
    + apply (bool_decide_unpack _). vm_compute. exact I.
    + apply (bool_decide_unpack _). vm_compute. exact I.
  - apply (find_connection_outcomes G_chain "A" "A"). reflexivity.
Defined.

(** On the chain [A]-[B]-[C]-[D] the path from [A] to [D] has three edges. *)
Example find_connection_chain :
  find_connection G_chain "A" "D" = Ok (Connection ["A"; "B"; "C"; "D"] 3).
Proof. vm_compute. reflexivity. Qed.

End PathFacts.

(** * Further properties *)

(** ** build_collaboration_network *)

Section BuildMore.

Context {W : Type} (search : W → string → W * result (list Result)).

Implicit Types (st : state (W:=W)) (g : nx.Graph) (q : list (string * Z)).
Implicit Types (acc : nx.Graph * list (string * Z)) (a c n u v : string).

Lemma visit_results_acc (I : nx.Graph * list (string * Z) → Prop) a d P rs :
  (∀ acc c, c ≠ a → I acc → I (visit_coauthor a d P acc c)) →
  ∀ acc, I acc → I (visit_results a d P acc rs).
Proof.
  intros Hstep. unfold visit_results.
  assert (Hcs : ∀ cs acc, I acc → I (foldl (visit_coauthor a d P) acc cs)).
  { induction cs as [|c cs IH]; intros acc Hacc; simpl; [done|].
    apply IH. destruct (decide (c = a)) as [->|Hc]; [|by apply Hstep].
    unfold visit_coauthor. by rewrite decide_False by (by intros ?). }
  induction rs as [|r rs IH]; intros acc Hacc; simpl; [done|].
  apply IH, Hcs, Hacc.
Qed.

(** The shape of one turn for an author not yet processed and below the
    depth bound, whatever the source answers. *)
Lemma loop_body_expand (I : state → Prop) m st a d rest :
  a ∉ processed_authors st → d < m →
  (∀ w g q,
     (∃ rs, (g, q) = visit_results a d (processed_authors st ∪ {[a]})
                       (if nx.has_node (G st) a then G st
                        else nx.add_node (G st) a, rest) rs) →
     I (mkState g (processed_authors st ∪ {[a]}) q (queried st ++ [a]) w)) →
  I (loop_body search m st a d rest).1.
Proof.
  intros Ha Hd HI. unfold loop_body. rewrite decide_False by done.
  destruct (Z.geb_spec d m); [lia|].
  destruct (search (world st) a) as [w [[|r rs]|e]].
  - simpl. apply HI. by exists [].
  - cbv beta iota zeta.
    match goal with
    | |- context [visit_results ?a ?d ?P ?acc ?rs] =>
        destruct (visit_results a d P acc rs) as [g q] eqn:E
    end.
    simpl. apply HI. exists (r :: rs). by rewrite E.
  - simpl. apply HI. by exists [].
Qed.

Lemma dom_node_added g a :
  dom (if nx.has_node g a then g else nx.add_node g a) = dom g ∪ {[a]}.
Proof.
  destruct (nx.has_node g a) eqn:E; [|apply dom_add_node].
  apply has_node_dom in E. set_solver.
Qed.

Lemma adj_node_added g a n :
  nx.adj (if nx.has_node g a then g else nx.add_node g a) n = nx.adj g n.
Proof. destruct (nx.has_node g a); [done|apply adj_add_node]. Qed.

(** *** The nodes are the processed and the queued authors *)

Lemma visit_coauthor_accounted a d P start acc c :
  a ∈ P → c ≠ a → acc_accounted P start acc →
  acc_accounted P start (visit_coauthor a d P acc c).
Proof.
  intros Ha Hc (H1 & H2 & H3). unfold visit_coauthor.
  rewrite decide_True by done. unfold acc_accounted. simpl.
  rewrite dom_add_edge. split; [set_solver|]. split.
  - intros n Hn. case_decide as Hcp.
    + rewrite fmap_app, elem_of_app. simpl.
      apply elem_of_union in Hn as [Hn|Hn].
      * destruct (H2 n Hn); auto.
      * apply elem_of_union in Hn as [Hn|Hn]; apply elem_of_singleton in Hn;
          subst n; [by left|]. right. right. left.
    + apply elem_of_union in Hn as [Hn|Hn]; [by apply H2|].
      left. apply elem_of_union in Hn as [Hn|Hn]; apply elem_of_singleton in Hn;
        subst n; [done|]. by destruct (decide (c ∈ P)).
  - destruct H3 as [?|H3]; [by left|]. right. case_decide; [|done].
    rewrite fmap_app, elem_of_app. by left.
Qed.

Lemma loop_body_nodes_accounted m start st a d rest :
  queue st = (a, d) :: rest →
  nodes_accounted start st →
  nodes_accounted start (loop_body search m st a d rest).1.
Proof.
  intros Hq (H1 & H2 & H3). rewrite Hq in H2, H3. simpl in H2, H3.
  destruct (decide (a ∈ processed_authors st)) as [Ha|Ha].
  { rewrite loop_body_processed by done. unfold nodes_accounted. simpl.
    split; [done|]. split.
    - intros n Hn. destruct (H2 n Hn) as [?|[->|?]%elem_of_cons]; auto.
    - destruct H3 as [?|[->|?]%elem_of_cons]; auto. }
  assert (Hacc : acc_accounted (processed_authors st ∪ {[a]}) start
                   (if nx.has_node (G st) a then G st
                    else nx.add_node (G st) a, rest)).
  { unfold acc_accounted. simpl. rewrite dom_node_added.
    split; [set_solver|]. split.
    - intros n [Hn|Hn]%elem_of_union; [|set_solver].
      destruct (H2 n Hn) as [?|[->|?]%elem_of_cons]; set_solver.
    - destruct H3 as [?|[->|?]%elem_of_cons]; set_solver. }
  destruct (Z.geb_spec d m) as [Hge|Hlt].
  { unfold loop_body. rewrite decide_False by done.
    rewrite (proj2 (Z.geb_le d m)) by lia. exact Hacc. }
  apply loop_body_expand; [done|done|].
  intros w g q [rs Hrs].
  change (acc_accounted (processed_authors st ∪ {[a]}) start (g, q)).
  rewrite Hrs. apply visit_results_acc; [|exact Hacc].
  intros acc c Hc. apply visit_coauthor_accounted; [set_solver|done].
Qed.

Lemma while_queue_returned m fuel : ∀ st st',
  while_queue search fuel m st = Returned st' → queue st' = [].
Proof.
  induction fuel as [|fuel IH]; intros st st'; simpl.
  - destruct (queue st) as [|[a d] rest] eqn:E; [|done]. by intros [= <-].
  - destruct (queue st) as [|[a d] rest] eqn:E; [by intros [= <-]|].
    destruct (loop_body search m st a d rest) as [st1 [e|]]; [done|].
    apply IH.
Qed.

(** *** Every node is within the depth bound of the start author *)

Lemma nsteps_neighbour_mono g g' k u v :
  (∀ n, nx.adj g n ⊆ nx.adj g' n) →
  nsteps (neighbour g) k u v → nsteps (neighbour g') k u v.
Proof.
  intros Hsub H. induction H as [|k x y z Hxy _ IH]; [constructor|].
  econstructor; [|exact IH]. by apply Hsub.
Qed.

Lemma hops_bounded_mono start m g g' q :
  dom g' = dom g → (∀ n, nx.adj g n ⊆ nx.adj g' n) →
  hops_bounded start m g q → hops_bounded start m g' q.
Proof.
  intros Hd Hsub [H1 H2]. split.
  - intros c d Hc. destruct (H1 c d Hc) as (?&?&?). split; [done|].
    split; [done|]. by eapply nsteps_neighbour_mono.
  - intros n Hn. rewrite Hd in Hn. destruct (H2 n Hn) as (k & Hk & Hs).
    exists k. split; [done|]. by eapply nsteps_neighbour_mono.
Qed.

Lemma visit_coauthor_hops start m a d P acc c :
  (0 ≤ d)%Z → (d < m)%Z → c ≠ a →
  hops_bounded start m acc.1 acc.2
  ∧ nsteps (neighbour acc.1) (Z.to_nat d) start a →
  hops_bounded start m (visit_coauthor a d P acc c).1
    (visit_coauthor a d P acc c).2
  ∧ nsteps (neighbour (visit_coauthor a d P acc c).1) (Z.to_nat d) start a.
Proof.
  intros Hd0 Hdm Hc [[H1 H2] Ha]. unfold visit_coauthor.
  rewrite decide_True by done. simpl.
  assert (Hsub : ∀ n, nx.adj acc.1 n ⊆ nx.adj (nx.add_edge acc.1 a c) n).
  { intros n x Hx. apply elem_of_adj_add_edge. by left. }
  assert (Ha' : nsteps (neighbour (nx.add_edge acc.1 a c)) (Z.to_nat d)
                  start a) by by eapply nsteps_neighbour_mono.
  assert (Hc' : nsteps (neighbour (nx.add_edge acc.1 a c))
                  (Z.to_nat (d + 1)) start c).
  { replace (Z.to_nat (d + 1)) with (S (Z.to_nat d)) by lia.
    eapply nsteps_r; [exact Ha'|]. unfold neighbour.
    apply elem_of_adj_add_edge. right. by left. }
  split; [|done]. split.
  - intros x dx Hx.
    assert (Hold : (x, dx) ∈ acc.2 → (0 ≤ dx)%Z ∧ (dx ≤ Z.max 0 m)%Z
                   ∧ nsteps (neighbour (nx.add_edge acc.1 a c))
                       (Z.to_nat dx) start x).
    { intros Hin. destruct (H1 x dx Hin) as (?&?&?). split; [done|].
      split; [done|]. by eapply nsteps_neighbour_mono. }
    case_decide; [|by apply Hold].
    apply elem_of_app in Hx as [Hx|Hx]; [by apply Hold|].
    apply list_elem_of_singleton in Hx. injection Hx as -> ->.
    split; [lia|]. split; [lia|done].
  - intros n Hn. rewrite dom_add_edge in Hn.
    apply elem_of_union in Hn as [Hn|Hn].
    + destruct (H2 n Hn) as (k & Hk & Hs). exists k. split; [done|].
      by eapply nsteps_neighbour_mono.
    + apply elem_of_union in Hn as [Hn|Hn]; apply elem_of_singleton in Hn;
        subst n.
      * exists (Z.to_nat d). split; [lia|done].
      * exists (Z.to_nat (d + 1)). split; [lia|done].
Qed.

Lemma loop_body_hops_bounded m start st a d rest :
  queue st = (a, d) :: rest →
  hops_bounded start m (G st) (queue st) →
  hops_bounded start m (G (loop_body search m st a d rest).1)
    (queue (loop_body search m st a d rest).1).
Proof.
  intros Hq [H1 H2]. rewrite Hq in H1.
  destruct (H1 a d) as (Hd0 & Hdm & Ha); [left|].
  assert (Hrest : ∀ g, dom g = dom (G st) ∪ {[a]} →
                       (∀ n, nx.adj g n = nx.adj (G st) n) →
                       hops_bounded start m g rest).
  { intros g Hd Hadj.
    assert (Hsub : ∀ n, nx.adj (G st) n ⊆ nx.adj g n)
      by (intros n; by rewrite Hadj).
    split.
    - intros c dc Hc. destruct (H1 c dc) as (?&?&?); [by right|].
      split; [done|]. split; [done|]. by eapply nsteps_neighbour_mono.
    - intros n Hn. rewrite Hd in Hn.
      apply elem_of_union in Hn as [Hn|Hn%elem_of_singleton].
      + destruct (H2 n Hn) as (k & Hk & Hs). exists k. split; [done|].
        by eapply nsteps_neighbour_mono.
      + subst n. exists (Z.to_nat d). split; [lia|].
        by eapply nsteps_neighbour_mono. }
  destruct (decide (a ∈ processed_authors st)) as [Hp|Hp].
  { rewrite loop_body_processed by done. simpl. split.
    - intros c dc Hc. apply H1. by right.
    - done. }
  pose proof (Hrest _ (dom_node_added (G st) a) (adj_node_added (G st) a))
    as Hacc.
  destruct (Z.geb_spec d m) as [Hge|Hlt].
  { unfold loop_body. rewrite decide_False by done.
    rewrite (proj2 (Z.geb_le d m)) by lia. exact Hacc. }
  apply (loop_body_expand
           (λ st', hops_bounded start m (G st') (queue st')));
    [done|done|].
  intros w g q [rs Hrs]. simpl.
  change (hops_bounded start m (g, q).1 (g, q).2). rewrite Hrs.
  apply (visit_results_acc
           (λ acc, hops_bounded start m acc.1 acc.2
                   ∧ nsteps (neighbour acc.1) (Z.to_nat d) start a)).
  - intros acc c Hc. by apply visit_coauthor_hops.
  - split; [exact Hacc|]. simpl.
    eapply nsteps_neighbour_mono; [|exact Ha].
    intros n. by rewrite adj_node_added.
Qed.

(** *** Every edge has an endpoint that was asked about *)

Lemma loop_body_edges_touch m st a d rest :
  edges_touch (queried st) (G st) →
  edges_touch (queried (loop_body search m st a d rest).1)
    (G (loop_body search m st a d rest).1).
Proof.
  intros HG.
  destruct (decide (a ∈ processed_authors st)) as [Hp|Hp].
  { by rewrite loop_body_processed. }
  assert (H1 : ∀ asked, queried st ⊆ asked →
                 edges_touch asked
                   (if nx.has_node (G st) a then G st
                    else nx.add_node (G st) a)).
  { intros asked Hsub u v. rewrite adj_node_added. intros Huv.
    destruct (HG u v Huv); [left|right]; by apply Hsub. }
  destruct (Z.geb_spec d m) as [Hge|Hlt].
  { unfold loop_body. rewrite decide_False by done.
    rewrite (proj2 (Z.geb_le d m)) by lia. simpl. by apply H1. }
  apply (loop_body_expand (λ st', edges_touch (queried st') (G st')));
    [done|done|].
  intros w g q [rs Hrs]. simpl.
  change (edges_touch (queried st ++ [a]) (g, q).1). rewrite Hrs.
  apply (visit_results_graph (edges_touch (queried st ++ [a]))).
  - intros g' c _ Hg' u v [Hold|[[-> _]|[_ ->]]]%elem_of_adj_add_edge.
    + by apply Hg'.
    + left. apply elem_of_app. right. left.
    + right. apply elem_of_app. right. left.
  - simpl. apply H1. intros x Hx. apply elem_of_app. by left.
Qed.

End BuildMore.

Section BuildExtras.

Context {W : Type} (search : W → string → W * result (list Result)).

Implicit Types (st : state (W:=W)).

(** X1. At every moment of every build the graph is undirected: an edge is
    there in one direction exactly when it is there in the other. *)
Theorem build_graph_undirected
    (fuel : nat) (w : W) (start_author : string) (max_depth : Z) (u v : string) :
  nx.has_edge
    (G (final (build_collaboration_network search fuel w start_author
                 max_depth))) u v
  = nx.has_edge
      (G (final (build_collaboration_network search fuel w start_author
                   max_depth))) v u.
Proof.
  pose proof (build_symmetric search fuel w start_author max_depth) as Hsym.
  unfold nx.has_edge. apply bool_decide_ext. split; apply Hsym.
Qed.

Lemma while_queue_answers m fuel : ∀ st e st',
  answers search → while_queue search fuel m st ≠ Raised e st'.
Proof.
  induction fuel as [|fuel IH]; intros st e st' Hans; simpl.
  - by destruct (queue st) as [|[a d] rest].
  - destruct (queue st) as [|[a d] rest]; [done|].
    destruct (loop_body search m st a d rest) as [st1 [e1|]] eqn:E;
      [|by apply IH].
    exfalso. unfold loop_body in E. case_decide; [done|].
    destruct (d >=? m); [done|].
    destruct (Hans (world st) a) as [rs Hrs].
    destruct (search (world st) a) as [w1 [[|r rs1]|e2]]; simpl in Hrs;
      [done| |done].
    by destruct (visit_results _ _ _ _ _).
Qed.

(** X2. With a publication source that never raises, every build returns a
    graph: the loop ends and no exception leaves it. *)
Theorem build_returns_when_source_answers
    (w : W) (start_author : string) (max_depth : Z) :
  answers search →
  ∃ fuel st,
    build_collaboration_network search fuel w start_author max_depth
    = Returned st.
Proof.
  intros Hans. destruct (build_halts search w start_author max_depth)
    as [fuel Hh].
  exists fuel.
  destruct (build_collaboration_network search fuel w start_author max_depth)
    as [st|e st|st] eqn:E; [by exists st| |done].
  exfalso. by eapply (while_queue_answers max_depth fuel).
Qed.

(** X3. When a build returns, the nodes of the graph are exactly the
    authors that were taken from the queue and marked processed, and the
    start author is one of them. *)
Theorem build_nodes_are_processed_authors
    (fuel : nat) (w : W) (start_author : string) (max_depth : Z) st :
  build_collaboration_network search fuel w start_author max_depth
  = Returned st →
  nx.nodes (G st) = processed_authors st
  ∧ start_author ∈ nx.nodes (G st).
Proof.
  intros Hret.
  pose proof (while_queue_invariant search (nodes_accounted start_author)
                max_depth) as Hinv.
  specialize (Hinv (λ st0 a d rest HI Hq,
                      loop_body_nodes_accounted search max_depth start_author
                        st0 a d rest Hq HI)
                   fuel (init w start_author)).
  unfold build_collaboration_network in Hret. rewrite Hret in Hinv.
  apply while_queue_returned in Hret.
  destruct Hinv as (H1 & H2 & H3).
  { unfold nodes_accounted, init. simpl. split; [set_solver|].
    split; [|right; left]. unfold nx.empty. set_solver. }
  simpl in *. rewrite Hret in H2, H3. simpl in *.
  assert (Heq : nx.nodes (G st) = processed_authors st).
  { apply set_eq. intros n. unfold nx.nodes. split.
    - intros Hn. destruct (H2 n Hn) as [?|?%elem_of_nil]; done.
    - apply H1. }
  split; [done|]. rewrite Heq. by destruct H3 as [?|?%elem_of_nil].
Qed.

(** X4. At every moment of every build, every node of the graph is joined
    to the start author by a walk in the graph of at most [max_depth]
    edges (of no edge when [max_depth] is negative). *)
Theorem build_nodes_within_depth
    (fuel : nat) (w : W) (start_author : string) (max_depth : Z) (n : string) :
  n ∈ nx.nodes
        (G (final (build_collaboration_network search fuel w start_author
                     max_depth))) →
  within
    (G (final (build_collaboration_network search fuel w start_author
                 max_depth)))
    start_author (Z.max 0 max_depth) n.
Proof.
  pose proof (while_queue_invariant search
                (λ st, hops_bounded start_author max_depth (G st) (queue st))
                max_depth) as Hinv.
  specialize (Hinv (λ st0 a d rest HI Hq,
                      loop_body_hops_bounded search max_depth start_author
                        st0 a d rest Hq HI)
                   fuel (init w start_author)).
  destruct Hinv as [_ H2]; [|exact (H2 n)].
  unfold init. simpl. split.
  - intros c d Hc. apply list_elem_of_singleton in Hc.
    injection Hc as -> ->. split; [lia|]. split; [lia|constructor].
  - intros x Hx. unfold nx.empty in Hx. set_solver.
Qed.

(** X5. At every moment of every build, the authors asked about are nodes
    of the graph, so the number of queries issued is at most the number of
    nodes. *)
Theorem build_queries_at_most_nodes
    (fuel : nat) (w : W) (start_author : string) (max_depth : Z) :
  list_to_set
    (queried (final (build_collaboration_network search fuel w start_author
                       max_depth)))
  ⊆ nx.nodes
      (G (final (build_collaboration_network search fuel w start_author
                   max_depth)))
  ∧ (length
       (queried (final (build_collaboration_network search fuel w
                          start_author max_depth)))
     ≤ nx.number_of_nodes
         (G (final (build_collaboration_network search fuel w start_author
                      max_depth))))%nat.
Proof.
  pose proof (while_queue_invariant search
                (λ st, asked_once st ∧ nodes_accounted start_author st)
                max_depth) as Hinv.
  specialize (Hinv (λ st0 a d rest HI Hq,
    conj (loop_body_asked_once search max_depth st0 a d rest (proj1 HI))
         (loop_body_nodes_accounted search max_depth start_author st0 a d
            rest Hq (proj2 HI)))
    fuel (init w start_author)).
  destruct Hinv as [[Hnd Hsub] (Hp & _ & _)].
  { split.
    - split; [constructor|]. by intros a ?%elem_of_nil.
    - unfold nodes_accounted, init. simpl. split; [set_solver|].
      split; [|right; left]. unfold nx.empty. set_solver. }
  fold (build_collaboration_network search fuel w start_author max_depth)
    in Hnd, Hsub, Hp.
  set (st := final (build_collaboration_network search fuel w start_author
                      max_depth)) in *.
  assert (Hin : list_to_set (queried st) ⊆ nx.nodes (G st)).
  { intros a Ha%elem_of_list_to_set. by apply Hp, Hsub. }
  split; [done|]. unfold nx.number_of_nodes.
  rewrite <- (size_list_to_set (C:=gset string) (queried st)) by done.
  by apply subseteq_size.
Qed.

(** X6. With a depth bound of 0 or less, every build returns after one turn
    the graph whose only node is the start author, and asks the source
    nothing. *)
Theorem build_nonpositive_depth
    (w : W) (start_author : string) (max_depth : Z) (fuel : nat) :
  (max_depth ≤ 0)%Z →
  ∃ st,
    build_collaboration_network search (S fuel) w start_author max_depth
    = Returned st
    ∧ G st = {[start_author := ∅]}
    ∧ queried st = []
    ∧ world st = w.
Proof.
  intros Hm. eexists. split.
  - unfold build_collaboration_network, init. simpl.
    unfold loop_body. simpl. rewrite decide_False by set_solver.
    unfold nx.has_node, nx.empty. rewrite lookup_empty.
    rewrite bool_decide_eq_false_2 by (by intros [? ?]).
    rewrite (proj2 (Z.geb_le 0 max_depth)) by done.
    simpl. destruct fuel; reflexivity.
  - simpl. unfold nx.add_node, nx.empty. rewrite lookup_empty.
    by rewrite insert_empty.
Qed.

Lemma visit_results_alone a d P rs :
  Forall (λ r, Forall (λ c, c = a) (authors r)) rs →
  ∀ acc, visit_results a d P acc rs = acc.
Proof.
  intros Hrs acc. unfold visit_results.
  induction Hrs as [|r rs Hr _ IH]; simpl; [done|].
  rewrite <- IH at 2. f_equal. unfold get_coauthors.
  induction Hr as [|c cs -> _ IHc]; simpl; [done|].
  unfold visit_coauthor at 2. by rewrite decide_False by (by intros ?).
Qed.

(** X7. When every publication the source returns for the start author
    lists nobody else (also when it returns none), the build returns a
    graph of one node, the start author, without edges: not an empty
    graph. The source was asked once. *)
Theorem build_start_author_alone
    (w w' : W) (start_author : string) (max_depth : Z) (rs : list Result)
    (fuel : nat) :
  (0 < max_depth)%Z →
  search w start_author = (w', Ok rs) →
  Forall (λ r, Forall (λ c, c = start_author) (authors r)) rs →
  ∃ st,
    build_collaboration_network search (S fuel) w start_author max_depth
    = Returned st
    ∧ G st = {[start_author := ∅]}
    ∧ nx.number_of_nodes (G st) = 1%nat
    ∧ nx.number_of_edges (G st) = 0%nat
    ∧ queried st = [start_author]
    ∧ world st = w'.
Proof.
  intros Hm Hs Hrs.
  assert (HG : nx.add_node nx.empty start_author = {[start_author := ∅]}).
  { unfold nx.add_node, nx.empty. rewrite lookup_empty.
    by rewrite insert_empty. }
  assert (Hno : nx.has_node nx.empty start_author = false).
  { apply has_node_false. unfold nx.empty. set_solver. }
  assert (Hbody : loop_body search max_depth (init w start_author)
                    start_author 0 []
                  = (mkState {[start_author := ∅]} {[start_author]} []
                       [start_author] w', None)).
  { unfold loop_body, init. cbn [processed_authors G queue queried world].
    rewrite decide_False by set_solver. rewrite Hno, HG.
    destruct (Z.geb_spec 0 max_depth); [lia|]. rewrite Hs.
    rewrite (left_id_L ∅ (∪)).
    destruct rs as [|r rs']; [done|].
    by rewrite visit_results_alone. }
  exists (mkState {[start_author := ∅]} {[start_author]} []
            [start_author] w').
  split.
  - unfold build_collaboration_network. simpl. rewrite Hbody.
    by destruct fuel.
  - simpl. split; [done|].
    unfold nx.number_of_nodes, nx.number_of_edges, nx.edges, nx.items,
      nx.edges_in.
    rewrite dom_singleton_L, size_singleton, map_to_list_singleton. simpl.
    by rewrite elements_empty.
Qed.

(** X8. At every moment of every build, every edge of the graph has an
    endpoint that the source was asked about. *)
Theorem build_edges_have_queried_endpoint
    (fuel : nat) (w : W) (start_author : string) (max_depth : Z) (u v : string) :
  nx.has_edge
    (G (final (build_collaboration_network search fuel w start_author
                 max_depth))) u v = true →
  u ∈ queried (final (build_collaboration_network search fuel w start_author
                        max_depth))
  ∨ v ∈ queried (final (build_collaboration_network search fuel w
                          start_author max_depth)).
Proof.
  intros Huv%bool_decide_eq_true.
  pose proof (while_queue_invariant search
                (λ st, edges_touch (queried st) (G st)) max_depth) as Hinv.
  specialize (Hinv (λ st0 a d rest HI _,
                      loop_body_edges_touch search max_depth st0 a d rest HI)
                   fuel (init w start_author)).
  apply Hinv; [|exact Huv].
  intros x y. unfold init, nx.adj, nx.empty. simpl. rewrite lookup_empty.
  set_solver.
Qed.

End BuildExtras.

Lemma build_returns_when_source_answers_witness :
  ∃ fuel st, build_collaboration_network stub_ABCD fuel tt "A" 2 = Returned st.
Proof.
  apply (build_returns_when_source_answers stub_ABCD tt "A" 2).
  intros w a. eexists. reflexivity.
Defined.

Lemma build_nodes_are_processed_authors_witness :
  nx.nodes (G (final (build_collaboration_network stub_ABCD 3 tt "A" 1)))
  = processed_authors
      (final (build_collaboration_network stub_ABCD 3 tt "A" 1))
  ∧ "A" ∈ nx.nodes
            (G (final (build_collaboration_network stub_ABCD 3 tt "A" 1))).
Proof.
  apply (build_nodes_are_processed_authors stub_ABCD 3 tt "A" 1).
  vm_compute. reflexivity.
Defined.

Lemma build_nodes_within_depth_witness :
  within (G (final (build_collaboration_network stub_ABCD 3 tt "A" 1)))
    "A" (Z.max 0 1) "C".
Proof.
  apply (build_nodes_within_depth stub_ABCD 3 tt "A" 1 "C").
  apply (bool_decide_unpack _). vm_compute. exact I.
Defined.

Lemma build_nonpositive_depth_witness :
  ∃ st,
    build_collaboration_network stub_ABCD 1 tt "A" (-3) = Returned st
    ∧ G st = {["A" := ∅]} ∧ queried st = [] ∧ world st = tt.
Proof.
  apply (build_nonpositive_depth stub_ABCD tt "A" (-3) 0). lia.
Defined.

Lemma build_start_author_alone_witness :
  ∃ st,
    build_collaboration_network stub_alone 1 tt "A" 2 = Returned st
    ∧ G st = {["A" := ∅]}
    ∧ nx.number_of_nodes (G st) = 1%nat
    ∧ nx.number_of_edges (G st) = 0%nat
    ∧ queried st = ["A"]
    ∧ world st = tt.
Proof.
  apply (build_start_author_alone stub_alone tt tt "A" 2
           [pub ["A"]; pub ["A"]] 0).
  - lia.
  - reflexivity.
  - repeat constructor.
Defined.

Lemma build_edges_have_queried_endpoint_witness :
  "C" ∈ queried (final (build_collaboration_network stub_ABCD 3 tt "A" 1))
  ∨ "A" ∈ queried (final (build_collaboration_network stub_ABCD 3 tt "A" 1)).
Proof.
  apply (build_edges_have_queried_endpoint stub_ABCD 3 tt "A" 1 "C" "A").
  vm_compute. reflexivity.
Defined.

(** ** save_edges_to_csv and load_all_csv_edges, further *)

Section StoreMore.

Implicit Types (dir : folder) (rows : list (list string)).
Implicit Types (row : list string) (u v n x a : string).

(** The graph of a run of rows depends only on which rows there are. *)
Lemma load_rows_ext rows1 rows2 (g : nx.Graph) :
  (∀ row, row ∈ rows1 ↔ row ∈ rows2) →
  foldl load_row g rows1 = foldl load_row g rows2.
Proof.
  intros Hrows. apply graph_eq.
  - apply set_eq. intros n. rewrite !dom_load_rows.
    by setoid_rewrite Hrows.
  - intros n. apply set_eq. intros x. rewrite !adj_load_rows.
    by rewrite !Hrows.
Qed.

Lemma elem_of_data_rows dir row :
  row ∈ data_rows dir ↔ ∃ f, f ∈ csv_files dir ∧ row ∈ tail f.
Proof.
  unfold data_rows. rewrite list_elem_of_join. split.
  - intros (l & Hrow & (f & -> & Hf)%list_elem_of_fmap). eauto.
  - intros (f & Hf & Hrow). exists (tail f). split; [done|].
    apply list_elem_of_fmap. eauto.
Qed.

(** What [load_all_csv_edges] returns, in one equation. *)
Lemma load_all_cases dir :
  load_all_csv_edges dir
  = if decide (Exists (λ f, f = []) (csv_files dir))
    then Raise StopIteration
    else Ok (foldl load_row nx.empty (data_rows dir)).
Proof.
  unfold load_all_csv_edges. case_decide as He.
  - by apply load_files_raises.
  - apply load_files_ok. apply not_Exists_Forall in He; [|intros f; apply _].
    eapply Forall_impl; [exact He|]. simpl. auto.
Qed.

(** The rows written for a graph load as the graph without its isolated
    nodes. *)
Lemma load_saved_rows (g : nx.Graph) (l : nx.view) :
  nx.symmetric g → nx.views l g →
  foldl load_row nx.empty
    ((λ e : string * string, [e.1; e.2]) <$> nx.edges_in l)
  = nx.drop_isolated g.
Proof.
  intros Hsym Hl.
  set (rows := (λ e : string * string, [e.1; e.2]) <$> nx.edges_in l).
  assert (Hrows : ∀ u v, [u; v] ∈ rows ↔ (u, v) ∈ nx.edges_in l).
  { intros u v. subst rows. rewrite list_elem_of_fmap. split.
    - by intros ([a b] & [= -> ->] & H).
    - intros H. by exists (u, v). }
  apply graph_eq.
  - apply set_eq. intros n. fold (nx.endpoints g).
    rewrite dom_load_rows, elem_of_endpoints.
    unfold nx.empty. rewrite dom_empty_L. setoid_rewrite Hrows.
    setoid_rewrite (edges_in_spec g l n _ Hsym Hl). set_solver.
  - intros n. apply set_eq. intros x.
    rewrite adj_load_rows, !Hrows, adj_drop_isolated.
    rewrite (edges_in_spec g l n x Hsym Hl).
    unfold nx.adj at 1, nx.empty. rewrite lookup_empty. set_solver.
Qed.

Lemma drop_isolated_id (g : nx.Graph) :
  nx.endpoints g = nx.nodes g → nx.drop_isolated g = g.
Proof.
  intros H. apply graph_eq; [exact H|]. intros n. apply adj_drop_isolated.
Qed.

(** X9. A folder that holds no file whose name ends in [.csv] (an empty
    folder, say) loads as the empty graph, and nothing is raised. *)
Theorem load_folder_without_csv_files dir :
  Forall (λ f, endswith f.1 ".csv" = false) dir →
  load_all_csv_edges dir = Ok nx.empty.
Proof.
  intros Hdir. unfold load_all_csv_edges. generalize nx.empty.
  induction Hdir as [|[name f] dir Hname _ IH]; intros g; simpl; [done|].
  simpl in Hname. by rewrite Hname.
Qed.

(** X10. What is loaded depends only on which [.csv] files the folder
    holds, as lists of rows: not on the order in which [os.listdir] names
    them, not on their names, and not on a file being there twice. *)
Theorem load_depends_on_files_only dir1 dir2 :
  (∀ f, f ∈ csv_files dir1 ↔ f ∈ csv_files dir2) →
  load_all_csv_edges dir1 = load_all_csv_edges dir2.
Proof.
  intros Hf. rewrite !load_all_cases.
  assert (He : Exists (λ f, f = []) (csv_files dir1)
               ↔ Exists (λ f, f = []) (csv_files dir2)).
  { rewrite !Exists_exists. by setoid_rewrite Hf. }
  repeat case_decide; try tauto. f_equal. apply load_rows_ext.
  intros row. rewrite !elem_of_data_rows. by setoid_rewrite Hf.
Qed.

(** X11. A graph that is loaded is undirected and has no isolated node:
    every node is an endpoint of an edge. *)
Theorem loaded_graph_undirected_without_isolated_nodes dir (g : nx.Graph) :
  load_all_csv_edges dir = Ok g →
  nx.symmetric g ∧ nx.nodes g = nx.endpoints g.
Proof.
  intros ->%load_all_rows. split.
  - apply symmetric_load_rows, symmetric_empty.
  - apply set_eq. intros n. unfold nx.nodes.
    rewrite elem_of_endpoints, dom_load_rows.
    setoid_rewrite adj_load_rows.
    unfold nx.adj, nx.empty. rewrite dom_empty_L, lookup_empty. set_solver.
Qed.

(** X12. The first row of a file is dropped unread, whatever it holds:
    putting any other row in its place changes nothing, so a file whose
    first row is an edge loads without that edge. *)
Theorem load_ignores_first_rows dir (h : list string) :
  load_all_csv_edges (replace_header h <$> dir) = load_all_csv_edges dir.
Proof.
  unfold load_all_csv_edges. generalize nx.empty.
  induction dir as [|[name f] dir IH]; intros g; [done|].
  rewrite fmap_cons. simpl. destruct (endswith name ".csv"); [|apply IH].
  destruct f as [|first data]; [done|]. apply IH.
Qed.

(** X13. What [save_edges_to_csv] writes is what [load_all_csv_edges]
    reads: the path ends in [.csv], the first row is the header, every row
    has exactly two fields, and there is one row for each edge that
    [G.edges()] lists. *)
Theorem save_writes_loadable_file (l : nx.view) author max_depth :
  endswith (save_edges_to_csv l author max_depth).1 ".csv" = true
  ∧ head (save_edges_to_csv l author max_depth).2
    = Some ["Author1"; "Author2"]
  ∧ Forall (λ row, length row = 2%nat) (save_edges_to_csv l author max_depth).2
  ∧ length (save_edges_to_csv l author max_depth).2
    = S (length (nx.edges_in l)).
Proof.
  split; [apply save_filename_csv|]. split; [done|]. split.
  - unfold save_edges_to_csv. simpl. constructor; [done|].
    apply Forall_fmap, Forall_forall. by intros [u v] _.
  - unfold save_edges_to_csv. simpl. by rewrite length_fmap.
Qed.

(** X14. For an undirected graph in which every node has a neighbour,
    saving and then loading the one file gives the graph back. *)
Theorem save_then_load_round_trip
    (g : nx.Graph) (l : nx.view) author max_depth name :
  nx.symmetric g → nx.views l g → nx.endpoints g = nx.nodes g →
  endswith name ".csv" = true →
  load_all_csv_edges [(name, (save_edges_to_csv l author max_depth).2)]
  = Ok g.
Proof.
  intros Hsym Hl Hiso Hname. unfold load_all_csv_edges. simpl.
  rewrite Hname. rewrite (load_saved_rows g l Hsym Hl).
  by rewrite drop_isolated_id.
Qed.

End StoreMore.

Lemma load_folder_without_csv_files_witness :
  load_all_csv_edges [("notes.txt", [["A"; "B"]]); ("csv", [])] = Ok nx.empty.
Proof.
  apply (load_folder_without_csv_files
           [("notes.txt", [["A"; "B"]]); ("csv", [])]).
  repeat constructor.
Defined.

Lemma load_depends_on_files_only_witness :
  load_all_csv_edges (folder_two ++ folder_one ++ folder_two)
  = load_all_csv_edges (folder_one ++ folder_two).
Proof.
  apply (load_depends_on_files_only (folder_two ++ folder_one ++ folder_two)
           (folder_one ++ folder_two)).
  intros f.
  change (csv_files (folder_two ++ folder_one ++ folder_two))
    with [folder_two.*2 !!! 0%nat; folder_one.*2 !!! 0%nat;
          folder_two.*2 !!! 0%nat].
  change (csv_files (folder_one ++ folder_two))
    with [folder_one.*2 !!! 0%nat; folder_two.*2 !!! 0%nat].
  rewrite !elem_of_cons, elem_of_nil. tauto.
Defined.

Lemma loaded_graph_undirected_without_isolated_nodes_witness :
  nx.symmetric (nx.add_edge (nx.add_edge nx.empty "A" "B") "B" "C")
  ∧ nx.nodes (nx.add_edge (nx.add_edge nx.empty "A" "B") "B" "C")
    = nx.endpoints (nx.add_edge (nx.add_edge nx.empty "A" "B") "B" "C").
Proof.
  apply (loaded_graph_undirected_without_isolated_nodes folder_two).
  reflexivity.
Defined.

Lemma save_then_load_round_trip_witness :
  load_all_csv_edges
    [("collaboration_network_A_depth_3.csv",
      (save_edges_to_csv views_chain "A" 3).2)] = Ok G_chain.
Proof.
  apply (save_then_load_round_trip G_chain views_chain "A" 3
           "collaboration_network_A_depth_3.csv").
  - repeat apply symmetric_add_edge. apply symmetric_empty.
  - apply (bool_decide_unpack (nx.views views_chain G_chain)). vm_compute.
    exact I.
  - vm_compute. reflexivity.
  - reflexivity.
Defined.

(** ** From a build to a loaded graph *)

Section Pipeline.

Context {W : Type} (search : W → string → W * result (list Result)).

Lemma build_hops (fuel : nat) (w : W) (start_author : string) (max_depth : Z) :
  hops_bounded start_author max_depth
    (G (final (build_collaboration_network search fuel w start_author
                 max_depth)))
    (queue (final (build_collaboration_network search fuel w start_author
                     max_depth))).
Proof.
  apply (while_queue_invariant search
           (λ st, hops_bounded start_author max_depth (G st) (queue st))).
  - intros st a d rest HI Hq. by apply loop_body_hops_bounded.
  - unfold init. simpl. split.
    + intros c d Hc. apply list_elem_of_singleton in Hc.
      injection Hc as -> ->. split; [lia|]. split; [lia|constructor].
    + intros x Hx. unfold nx.empty in Hx. set_solver.
Qed.

(** In the graph of a build, a node other than the start author has a
    neighbour, and so has the start author unless it is the only node. *)
Lemma build_neighbours (fuel : nat) (w : W) (start_author : string)
    (max_depth : Z) (n : string) :
  let g := G (final (build_collaboration_network search fuel w start_author
                       max_depth)) in
  n ∈ dom g →
  (n = start_author ∨ ∃ x, x ∈ nx.adj g n)
  ∧ (n ≠ start_author → ∃ x, x ∈ nx.adj g start_author).
Proof.
  intros g Hn.
  pose proof (build_symmetric search fuel w start_author max_depth) as Hsym.
  destruct (build_hops fuel w start_author max_depth) as [_ Hw].
  destruct (Hw n Hn) as (k & _ & Hk). fold g in Hsym, Hk.
  destruct k as [|k].
  - inversion Hk; subst. split; [by left|done].
  - split.
    + right. apply nsteps_inv_r in Hk as (y & _ & Hy). exists y.
      by apply Hsym.
    + intros _. inversion Hk as [|? ? y ? Hy _]; subst. by exists y.
Qed.

(** X15. When a build returns, saving its graph and loading the one file
    gives the same graph back, except when the start author has no
    co-author in it: then the start author is the only node, the file holds
    the header alone, and the empty graph is loaded. *)
Theorem build_save_load
    (fuel : nat) (w : W) (start_author : string) (max_depth : Z) st
    (l : nx.view) author depth name :
  build_collaboration_network search fuel w start_author max_depth
  = Returned st →
  nx.views l (G st) →
  endswith name ".csv" = true →
  load_all_csv_edges [(name, (save_edges_to_csv l author depth).2)]
  = Ok (if decide (nx.adj (G st) start_author = ∅) then nx.empty else G st).
Proof.
  intros Hret Hl Hname.
  pose proof (build_symmetric search fuel w start_author max_depth) as Hsym.
  pose proof (build_neighbours fuel w start_author max_depth) as Hnb.
  rewrite Hret in Hsym, Hnb. simpl in Hsym, Hnb.
  unfold load_all_csv_edges. simpl. rewrite Hname.
  rewrite (load_saved_rows (G st) l Hsym Hl). f_equal.
  case_decide as Hs.
  - apply graph_eq.
    + apply set_eq. intros n. fold (nx.endpoints (G st)).
      rewrite elem_of_endpoints. unfold nx.empty. rewrite dom_empty_L.
      split; [|set_solver]. intros [x Hx].
      destruct (Hnb n (adj_nonempty_node _ _ _ Hx)) as [_ Hstart].
      destruct (decide (n = start_author)) as [->|Hne]; [set_solver|].
      destruct (Hstart Hne) as [y Hy]. set_solver.
    + intros n. apply set_eq. intros x. rewrite adj_drop_isolated.
      unfold nx.adj at 2, nx.empty. rewrite lookup_empty. simpl.
      split; [|set_solver]. intros Hx.
      destruct (Hnb n (adj_nonempty_node _ _ _ Hx)) as [_ Hstart].
      destruct (decide (n = start_author)) as [->|Hne]; [set_solver|].
      destruct (Hstart Hne) as [y Hy]. set_solver.
  - apply drop_isolated_id. apply set_eq. intros n.
    rewrite elem_of_endpoints. unfold nx.nodes. split.
    + intros [x Hx]. by eapply adj_nonempty_node.
    + intros Hn. destruct (Hnb n Hn) as [[->|Hx] _]; [|done].
      by apply set_choose_L.
Qed.

End Pipeline.

Lemma build_save_load_witness :
  load_all_csv_edges
    [("collaboration_network_A_depth_1.csv",
      (save_edges_to_csv [("A", ["B"; "C"]); ("B", ["A"]); ("C", ["A"])]
         "A" 1).2)]
  = Ok (if decide (nx.adj G_ABC "A" = ∅) then nx.empty else G_ABC).
Proof.
  apply (build_save_load stub_ABCD 3 tt "A" 1
           (mkState G_ABC (list_to_set ["A"; "B"; "C"]) [] ["A"] tt)
           [("A", ["B"; "C"]); ("B", ["A"]); ("C", ["A"])] "A" 1
           "collaboration_network_A_depth_1.csv").
  - vm_compute. reflexivity.
  - apply (bool_decide_unpack _). vm_compute. exact I.
  - reflexivity.
Defined.

(** X16. An isolated node is at 0 degrees of separation from itself in the
    graph, and is reported as not found in the graph loaded from the file
    saved for that graph. *)
Theorem isolated_author_not_found_after_round_trip
    (g : nx.Graph) (l : nx.view) author max_depth name n other :
  nx.symmetric g → nx.views l g → endswith name ".csv" = true →
  n ∈ nx.nodes g → nx.adj g n = ∅ →
  find_connection g n n = Ok (Connection [n] 0)
  ∧ ∃ loaded,
      load_all_csv_edges [(name, (save_edges_to_csv l author max_depth).2)]
      = Ok loaded
      ∧ find_connection loaded n other = Ok (NotFound n).
Proof.
  intros Hsym Hl Hname Hn Hadj. split.
  - unfold find_connection, shortest_path.
    rewrite (proj2 (has_node_dom g n) Hn). simpl. by rewrite decide_True.
  - exists (nx.drop_isolated g). split.
    + unfold load_all_csv_edges. simpl. rewrite Hname.
      by rewrite (load_saved_rows g l Hsym Hl).
    + unfold find_connection.
      assert (Hno : nx.has_node (nx.drop_isolated g) n = false).
      { apply has_node_false. fold (nx.endpoints g).
        rewrite elem_of_endpoints. intros [x Hx]. rewrite Hadj in Hx.
        set_solver. }
      by rewrite Hno.
Qed.

Lemma isolated_author_not_found_after_round_trip_witness :
  find_connection G_AB_C "C" "C" = Ok (Connection ["C"] 0)
  ∧ ∃ loaded,
      load_all_csv_edges
        [("collaboration_network_C_depth_0.csv",
          (save_edges_to_csv view_AB_C "C" 0).2)] = Ok loaded
      ∧ find_connection loaded "C" "A" = Ok (NotFound "C").
Proof.
  apply (isolated_author_not_found_after_round_trip G_AB_C view_AB_C "C" 0
           "collaboration_network_C_depth_0.csv" "C" "A").
  - apply symmetric_add_node, symmetric_add_edge, symmetric_empty.
  - apply (bool_decide_unpack (nx.views view_AB_C G_AB_C)). vm_compute.
    exact I.
  - reflexivity.
  - apply (bool_decide_unpack _). vm_compute. exact I.
  - vm_compute. reflexivity.
Defined.

(** ** save_edges_to_json and save_edges_to_sigma_json *)

Section Exports.

Implicit Types (g : nx.Graph) (l : nx.view) (u v a b c : string).

Lemma append_assoc (s1 s2 s3 : string) :
  (s1 +:+ s2) +:+ s3 = s1 +:+ (s2 +:+ s3).
Proof.
  induction s1 as [|ch s1 IH]; [done|].
  change (String ch ((s1 +:+ s2) +:+ s3) = String ch (s1 +:+ (s2 +:+ s3))).
  by f_equal.
Qed.

Lemma views_size l g : nx.views l g → length l.*1 = size (dom g).
Proof.
  intros (Hnd & _ & <-). unfold nx.of_view.
  by rewrite dom_list_to_map_L, of_view_keys, size_list_to_set.
Qed.

Lemma length_filter_fmap {A B} (f : A → B) (P : B → Prop)
    `{∀ y, Decision (P y)} (xs : list A) :
  length (filter P (f <$> xs)) = length (filter (λ x, P (f x)) xs).
Proof.
  induction xs as [|x xs IH]; [done|]. rewrite fmap_cons.
  destruct (decide (P (f x))) as [HP|HP].
  - rewrite !filter_cons_True by done. simpl. by rewrite IH.
  - by rewrite !filter_cons_False by done.
Qed.

(** X17. In the Sigma.js export of an undirected graph there is one node
    object for each node, no two with the same id, each labelled with its
    id, and the source and the target of every edge object are ids of node
    objects. *)
Theorem sigma_export_consistent g l author max_depth :
  nx.symmetric g → nx.views l g →
  let nodes := (save_edges_to_sigma_json l author max_depth).2.1 in
  let edges := (save_edges_to_sigma_json l author max_depth).2.2 in
  NoDup (node_id <$> nodes)
  ∧ Forall (λ o, label o = node_id o) nodes
  ∧ length nodes = nx.number_of_nodes g
  ∧ Forall (λ o, edge_source o ∈ node_id <$> nodes
                 ∧ edge_target o ∈ node_id <$> nodes) edges.
Proof.
  intros Hsym Hl nodes edges. subst nodes edges.
  unfold save_edges_to_sigma_json. simpl.
  assert (Hids : node_id <$> ((λ n : string, {| node_id := n; label := n |})
                               <$> l.*1) = l.*1).
  { rewrite <- list_fmap_compose. rewrite <- (list_fmap_id l.*1) at 2.
    by apply list_fmap_ext. }
  rewrite Hids. split; [apply Hl|]. split.
  { apply Forall_fmap, Forall_forall. by intros n _. }
  split.
  { rewrite length_fmap. unfold nx.number_of_nodes. by apply views_size. }
  apply Forall_fmap, Forall_forall. intros [u v] Huv. simpl.
  assert (Hadj : v ∈ nx.adj g u).
  { apply (edges_in_spec g l u v Hsym Hl). by left. }
  split; apply (views_dom l g); try done.
  - by eapply adj_nonempty_node.
  - by eapply symmetric_adj_node.
Qed.

(** X18. The id of an edge object does not determine the edge: the
    different edges from [a_b] to [c] and from [a] to [b_c] get the same
    id. *)
Theorem sigma_edge_ids_collide a b c :
  (a +:+ "_" +:+ b, c) ≠ (a, b +:+ "_" +:+ c)
  ∧ sigma_edge_id (a +:+ "_" +:+ b) c = sigma_edge_id a (b +:+ "_" +:+ c).
Proof.
  split.
  - intros [= H _]. apply (f_equal String.length) in H.
    rewrite !length_append in H. simpl in H. lia.
  - unfold sigma_edge_id. by rewrite !append_assoc.
Qed.

(** X19. In the JSON export of an undirected graph every edge of the graph
    is one object: exactly one object of the list joins [a] and [b], as
    source and target or the other way round. *)
Theorem json_export_each_edge_once g l author max_depth a b :
  nx.symmetric g → nx.views l g → nx.has_edge g a b = true →
  length
    (filter (λ o, (source o = a ∧ target o = b)
                  ∨ (source o = b ∧ target o = a))
            (save_edges_to_json l author max_depth).2) = 1%nat.
Proof.
  intros Hsym Hl Hab%bool_decide_eq_true.
  unfold save_edges_to_json. simpl. rewrite length_filter_fmap. simpl.
  rewrite <- (joining_edges_in g l a b Hsym Hl Hab). unfold nx.joining.
  f_equal. apply list_filter_iff. intros [u v]. simpl. split.
  - intros [[-> ->]|[-> ->]]; auto.
  - intros [[= -> ->]|[= -> ->]]; auto.
Qed.

End Exports.

Lemma sigma_export_consistent_witness :
  let nodes := (save_edges_to_sigma_json view_AB_C "A" 1).2.1 in
  let edges := (save_edges_to_sigma_json view_AB_C "A" 1).2.2 in
  NoDup (node_id <$> nodes)
  ∧ Forall (λ o, label o = node_id o) nodes
  ∧ length nodes = nx.number_of_nodes G_AB_C
  ∧ Forall (λ o, edge_source o ∈ node_id <$> nodes
                 ∧ edge_target o ∈ node_id <$> nodes) edges.
Proof.
  apply (sigma_export_consistent G_AB_C view_AB_C "A" 1).
  - apply symmetric_add_node, symmetric_add_edge, symmetric_empty.
  - apply (bool_decide_unpack (nx.views view_AB_C G_AB_C)). vm_compute.
    exact I.
Defined.

Lemma json_export_each_edge_once_witness :
  length
    (filter (λ o, (source o = "B" ∧ target o = "A")
                  ∨ (source o = "A" ∧ target o = "B"))
            (save_edges_to_json view_AB_C "A" 1).2) = 1%nat.
Proof.
  apply (json_export_each_edge_once G_AB_C view_AB_C "A" 1 "B" "A").
  - apply symmetric_add_node, symmetric_add_edge, symmetric_empty.
  - apply (bool_decide_unpack (nx.views view_AB_C G_AB_C)). vm_compute.
    exact I.
  - vm_compute. reflexivity.
Defined.

(** ** find_connection, further *)

Section PathMore.

Implicit Types (g : nx.Graph) (p : list string) (s t u v : string).

Lemma walk_nsteps g p : ∀ s t,
  walk g p → head p = Some s → last p = Some t →
  nsteps (neighbour g) (length p - 1) s t.
Proof.
  induction p as [|a [|b p] IH]; intros s t Hw Hh Hl.
  - done.
  - simpl in *. injection Hh as ->. injection Hl as ->. constructor.
  - destruct Hw as [Hb Hw]. injection Hh as ->.
    rewrite last_cons_cons in Hl.
    replace (length (s :: b :: p) - 1)%nat with (S (length (b :: p) - 1))
      by (simpl; lia).
    econstructor; [exact Hb|]. by apply IH.
Qed.

Lemma nsteps_neighbour_sym g k u v :
  nx.symmetric g →
  nsteps (neighbour g) k u v → nsteps (neighbour g) k v u.
Proof.
  intros Hsym H. induction H as [|k x y z Hxy _ IH]; [constructor|].
  eapply nsteps_r; [exact IH|]. by apply Hsym.
Qed.

Lemma find_connection_nodes g X Y path degrees :
  find_connection g X Y = Ok (Connection path degrees) →
  nx.has_node g X = true ∧ nx.has_node g Y = true
  ∧ shortest_path g X Y = Ok path
  ∧ degrees = (Z.of_nat (length path) - 1)%Z.
Proof.
  unfold find_connection.
  destruct (nx.has_node g X); [|done]. destruct (nx.has_node g Y); [|done].
  simpl. destruct (shortest_path g X Y) as [p|e]; [|by destruct e].
  by intros [= <- <-].
Qed.

(** X20. [find_connection] lets no exception escape, whatever the graph
    and the two names are. *)
Theorem find_connection_never_raises g X Y :
  ∃ r, find_connection g X Y = Ok r.
Proof.
  unfold find_connection.
  destruct (nx.has_node g X) eqn:HX; [|simpl; eauto].
  destruct (nx.has_node g Y) eqn:HY; [|simpl; eauto].
  unfold shortest_path. rewrite HX, HY.
  change (true && true) with true. cbv iota.
  destruct (bfs _ _ _ _ _); simpl; eauto.
Qed.

(** X21. "Not found" names the first of the two authors that is no node:
    the first author when it is missing, the second only when the first is
    a node and the second is not. *)
Theorem find_connection_not_found_iff g X Y a :
  find_connection g X Y = Ok (NotFound a)
  ↔ (a = X ∧ nx.has_node g X = false)
    ∨ (a = Y ∧ nx.has_node g X = true ∧ nx.has_node g Y = false).
Proof.
  unfold find_connection.
  destruct (nx.has_node g X) eqn:HX; simpl.
  - destruct (nx.has_node g Y) eqn:HY; simpl.
    + destruct (shortest_path g X Y) as [p|e]; [|destruct e];
        naive_solver.
    + naive_solver.
  - naive_solver.
Qed.

(** X22. A reported connection is a walk in the graph from the first
    author to the second; the degrees of separation are its number of
    edges; and no walk between the two has fewer edges. *)
Theorem find_connection_reports_shortest_walk g X Y path degrees :
  find_connection g X Y = Ok (Connection path degrees) →
  walk g path ∧ head path = Some X ∧ last path = Some Y
  ∧ degrees = (Z.of_nat (length path) - 1)%Z
  ∧ ∀ k, nsteps (neighbour g) k X Y → (degrees ≤ Z.of_nat k)%Z.
Proof.
  intros (_ & _ & Hp & ->)%find_connection_nodes.
  destruct (shortest_path_sound _ _ _ _ Hp) as (Hw & Hh & Hl).
  repeat split; try done.
  intros k Hk. pose proof (shortest_path_shortest _ _ _ _ Hp k Hk). lia.
Qed.

(** X23. In an undirected graph, "no connection" is the answer for two
    nodes exactly when no walk joins them. *)
Theorem find_connection_no_connection_iff g X Y :
  nx.symmetric g → nx.has_node g X = true → nx.has_node g Y = true →
  find_connection g X Y = Ok NoConnection ↔ ¬ connected g X Y.
Proof.
  intros Hsym HX HY. split.
  - intros Hno Hc.
    destruct (shortest_path_complete g X Y Hsym HX HY Hc) as [path Hp].
    unfold find_connection in Hno. rewrite HX, HY, Hp in Hno. done.
  - by apply find_connection_disconnected.
Qed.

(** X24. In an undirected graph the degrees of separation do not depend
    on the order of the two authors. *)
Theorem find_connection_degrees_symmetric g X Y path degrees :
  nx.symmetric g →
  find_connection g X Y = Ok (Connection path degrees) →
  ∃ path', find_connection g Y X = Ok (Connection path' degrees).
Proof.
  intros Hsym (HX & HY & Hp & ->)%find_connection_nodes.
  destruct (shortest_path_sound _ _ _ _ Hp) as (Hw & Hh & Hl).
  pose proof (walk_nsteps g path X Y Hw Hh Hl) as Hxy.
  pose proof (nsteps_neighbour_sym g _ _ _ Hsym Hxy) as Hyx.
  destruct (shortest_path_complete g Y X Hsym HY HX) as [path' Hp'].
  { by eapply rtc_nsteps_2. }
  destruct (shortest_path_sound _ _ _ _ Hp') as (Hw' & Hh' & Hl').
  pose proof (walk_nsteps g path' Y X Hw' Hh' Hl') as Hyx'.
  pose proof (nsteps_neighbour_sym g _ _ _ Hsym Hyx') as Hxy'.
  pose proof (shortest_path_shortest _ _ _ _ Hp _ Hxy') as H1.
  pose proof (shortest_path_shortest _ _ _ _ Hp' _ Hyx) as H2.
  exists path'. unfold find_connection. rewrite HX, HY, Hp'. simpl.
  destruct path as [|? ?]; [done|]. destruct path' as [|? ?]; [done|].
  simpl in *. do 2 f_equal. lia.
Qed.

(** X25. In an undirected graph two different authors joined by an edge
    are reported at 1 degree of separation, with the two of them as the
    path. *)
Theorem find_connection_coauthors g X Y :
  nx.symmetric g → nx.has_edge g X Y = true → X ≠ Y →
  find_connection g X Y = Ok (Connection [X; Y] 1).
Proof.
  intros Hsym HXY%bool_decide_eq_true Hne.
  assert (HX : nx.has_node g X = true)
    by (apply has_node_dom; by eapply adj_nonempty_node).
  assert (HY : nx.has_node g Y = true)
    by (apply has_node_dom; by eapply symmetric_adj_node).
  destruct (shortest_path_complete g X Y Hsym HX HY) as [path Hp].
  { by apply rtc_once. }
  destruct (shortest_path_sound _ _ _ _ Hp) as (Hw & Hh & Hl).
  pose proof (shortest_path_shortest _ _ _ _ Hp 1%nat) as Hlen.
  unfold find_connection. rewrite HX, HY, Hp. simpl.
  destruct path as [|a [|b [|c path]]]; simpl in *.
  - done.
  - injection Hh as ->. by injection Hl as ->.
  - injection Hh as ->. by injection Hl as ->.
  - specialize (Hlen (nsteps_once _ _ HXY)). lia.
Qed.

End PathMore.

Lemma find_connection_reports_shortest_walk_witness :
  walk G_chain ["A"; "B"; "C"; "D"]
  ∧ head ["A"; "B"; "C"; "D"] = Some "A"
  ∧ last ["A"; "B"; "C"; "D"] = Some "D"
  ∧ 3 = (Z.of_nat (length ["A"; "B"; "C"; "D"]) - 1)%Z
  ∧ ∀ k, nsteps (neighbour G_chain) k "A" "D" → (3 ≤ Z.of_nat k)%Z.
Proof.
  apply (find_connection_reports_shortest_walk G_chain "A" "D").
  vm_compute. reflexivity.
Defined.

Lemma find_connection_no_connection_iff_witness :
  find_connection G_chain "A" "Y" = Ok NoConnection
  ↔ ¬ connected G_chain "A" "Y".
Proof.
  apply (find_connection_no_connection_iff G_chain "A" "Y").
  - repeat apply symmetric_add_edge. apply symmetric_empty.
  - reflexivity.
  - reflexivity.
Defined.

Lemma find_connection_degrees_symmetric_witness :
  ∃ path', find_connection G_chain "D" "A" = Ok (Connection path' 3).
Proof.
  apply (find_connection_degrees_symmetric G_chain "A" "D"
           ["A"; "B"; "C"; "D"] 3).
  - repeat apply symmetric_add_edge. apply symmetric_empty.
  - vm_compute. reflexivity.
Defined.

Lemma find_connection_coauthors_witness :
  find_connection G_chain "C" "B" = Ok (Connection ["C"; "B"] 1).
Proof.
  apply (find_connection_coauthors G_chain "C" "B").
  - repeat apply symmetric_add_edge. apply symmetric_empty.
  - vm_compute. reflexivity.
  - discriminate.
Defined.

(** ** display_publication_info *)

Section Display.

Implicit Types (results : list ResultInfo) (r : ResultInfo) (i k : nat).

Lemma length_publication_blocks results : ∀ k,
  length (publication_blocks k results) = (7 * length results)%nat.
Proof.
  induction results as [|r results IH]; intros k; simpl; [done|].
  rewrite IH. lia.
Qed.

Lemma publication_blocks_block results : ∀ k i r,
  results !! i = Some r →
  take 7 (drop (7 * i) (publication_blocks k results))
  = publication_block (k + i) r.
Proof.
  induction results as [|r0 results IH]; intros k i r Hi; [done|].
  destruct i as [|i].
  - injection Hi as ->. rewrite Nat.add_0_r. reflexivity.
  - replace (7 * S i)%nat with (7 + 7 * i)%nat by lia.
    replace (k + S i)%nat with (S k + i)%nat by lia.
    rewrite <- (IH (S k) i r Hi). reflexivity.
Qed.


End Display.

